(** * Rtl-subtitle-fixer: a shallow embedding of [fixer.py]

    The development follows the layout of the Python module:
    the special-character constant, the two regular-expression searches of
    [fix_line], [fix_line] and [fix_subtitles], the [SrtParser] state
    machine, the [SrtWriter] and [get_file_lines].

    A Python [str] is a sequence of Unicode code points; a code point is a
    natural number here, so that the line boundaries of [str.splitlines],
    the whitespace of [str.strip] and the entries of the code page 1255
    table, some of which lie outside ASCII, are the very numbers Python
    uses.

    Two points of Python's [re] decide what the searches return: inside a
    character class a backslash only escapes the character after it, and
    [$] holds at the end of the string and also just before a newline that
    is the last character of the string. *)

From Stdlib Require Import String Ascii.
From Stdlib Require Import List NArith ZArith Lia Bool Permutation.
Import ListNotations.

Open Scope N_scope.

(** ** Strings *)

Module PyStr.

Definition char := N.
Definition str := list char.

(** An ASCII literal of the source, as code points. *)
Definition py (s : string) : str :=
  map N_of_ascii (list_ascii_of_string s).

Definition newline : char := 10.
Definition backslash : char := 92.
Definition dquote : char := 34.
Definition space : char := 32.
Definition dash : char := 45.

Definition len (s : str) : Z := Z.of_nat (length s).

Fixpoint str_eqb (a b : str) : bool :=
  match a, b with
  | [], [] => true
  | x :: a', y :: b' => (x =? y) && str_eqb a' b'
  | _, _ => false
  end.

(** A slice bound of Python: a negative bound counts from the end, and
    every bound is clamped to the string, so that a slice never fails. *)
Definition clamp_index (n i : Z) : Z :=
  if (i <? 0)%Z then Z.max 0 (i + n) else Z.min i n.

(** [s[a:b]] *)
Definition py_slice (s : str) (a b : Z) : str :=
  let n := len s in
  let lo := clamp_index n a in
  let hi := clamp_index n b in
  firstn (Z.to_nat (hi - lo)) (skipn (Z.to_nat lo) s).

(** [s.endswith(t)] *)
Definition endswith (s t : str) : bool :=
  (length t <=? length s)%nat && str_eqb (skipn (length s - length t) s) t.

(** [c in s] for a one-character [c]. *)
Definition contains (c : char) (s : str) : bool := existsb (N.eqb c) s.

(** [str.isspace] on one code point (the table of CPython's
    [_PyUnicode_IsWhitespace]). *)
Definition is_whitespace (c : char) : bool :=
  ((9 <=? c) && (c <=? 13)) || ((28 <=? c) && (c <=? 32))
  || (c =? 133) || (c =? 160) || (c =? 5760)
  || ((8192 <=? c) && (c <=? 8202))
  || (c =? 8232) || (c =? 8233) || (c =? 8239) || (c =? 8287)
  || (c =? 12288).

(** The line boundaries of [str.splitlines] (CPython's
    [_PyUnicode_IsLinebreak]). *)
Definition is_linebreak (c : char) : bool :=
  ((10 <=? c) && (c <=? 13)) || ((28 <=? c) && (c <=? 30))
  || (c =? 133) || (c =? 8232) || (c =? 8233).

Fixpoint lstrip (s : str) : str :=
  match s with
  | [] => []
  | c :: rest => if is_whitespace c then lstrip rest else s
  end.

(** [s.strip()]: whitespace removed at both ends. *)
Definition strip (s : str) : str := rev (lstrip (rev (lstrip s))).

(** [s.splitlines()]: [cur] holds the characters of the line being read,
    last one first.  A carriage return directly followed by a line feed is
    one boundary; nothing is produced for an empty last line. *)
Fixpoint splitlines_from (cur : str) (s : str) : list str :=
  match s with
  | [] => match cur with [] => [] | _ => [rev cur] end
  | c :: rest =>
      if is_linebreak c then
        rev cur ::
          match rest with
          | d :: rest' =>
              if (c =? 13) && (d =? 10) then splitlines_from [] rest'
              else splitlines_from [] rest
          | [] => splitlines_from [] rest
          end
      else splitlines_from (c :: cur) rest
  end.

Definition splitlines (s : str) : list str := splitlines_from [] s.

(** A code point that the codec [utf-8] encodes with [errors=strict]: any
    but a surrogate, U+D800 to U+DFFF.  (A Python [str] holds no code point
    above U+10FFFF; on such a number the model lets the encoding fail as
    well.) *)
Definition encodable (c : char) : bool :=
  (c <? 55296) || ((57343 <? c) && (c <=? 1114111)).

End PyStr.

Import PyStr.

(** ** Exceptions *)

(** The exceptions that leave the functions of the module: its own
    [DecodeError], and the two errors of the codecs. *)
Inductive exn := DecodeError | UnicodeDecodeError | UnicodeEncodeError.

Inductive outcome (A : Type) :=
| Returned (a : A)
| Raised (e : exn).
Arguments Returned {A} a.
Arguments Raised {A} e.

(** ** The special-character class *)

(** [SPECIAL_CHARS_RE_SET], character by character.  The source writes it as
    a raw string, so each of its three backslashes is a character of the
    constant; the double quote of the constant is [dquote]. *)
Definition SPECIAL_CHARS_RE_SET : str :=
  py ".,:;\'()\-?!+=*&$^%#@~`" ++ [dquote] ++ py " \/".

(** The members of the class [[...]] that a class body denotes in Python's
    [re]: a backslash escapes the character after it, which is then taken
    literally; every other character stands for itself.  (The body has no
    unescaped dash, hence no range.) *)
Fixpoint class_members (body : str) : list char :=
  match body with
  | [] => []
  | c :: rest =>
      if c =? backslash then
        match rest with
        | e :: rest' => e :: class_members rest'
        | [] => []
        end
      else c :: class_members rest
  end.

(** One character against [[SPECIAL_CHARS_RE_SET]]. *)
Definition is_special (c : char) : bool :=
  existsb (N.eqb c) (class_members SPECIAL_CHARS_RE_SET).

(** ** The two searches of [fix_line] *)

(** The starred class read greedily: the longest run of special characters at the head
    of [s]. *)
Fixpoint special_run (s : str) : str :=
  match s with
  | [] => []
  | c :: rest => if is_special c then c :: special_run rest else []
  end.

(** [re.search] of the prefix pattern (caret, then the starred class as
    group 1): the anchor holds at position 0, where the star always
    matches, so the search succeeds with the longest run. *)
Definition prefix_search (line : str) : option str :=
  Some (special_run line).

(** [$] of Python's [re] (no MULTILINE flag): at the end of the string, and
    also just before a newline that is the last character of the string.
    [rest] is what remains of the string at the position tested. *)
Definition at_dollar (rest : str) : bool :=
  match rest with
  | [] => true
  | [c] => c =? newline
  | _ => false
  end.

(** The starred class (group 1) followed by [$], matched at the head of
    [rest]: the star takes a special character when it can and gives it
    back when the remainder of the pattern then fails (backtracking).  The
    result is group 1. *)
Fixpoint star_then_dollar (rest : str) : option str :=
  match rest with
  | [] => Some []
  | c :: rest' =>
      if is_special c then
        match star_then_dollar rest' with
        | Some g => Some (c :: g)
        | None => if at_dollar rest then Some [] else None
        end
      else if at_dollar rest then Some [] else None
  end.

(** [re.search] of the suffix pattern (one character outside the class,
    then the starred class as group 1, then [$]): the leftmost position at
    which the pattern matches; group 1 of that match. *)
Fixpoint suffix_search (line : str) : option str :=
  match line with
  | [] => None
  | c :: rest =>
      if negb (is_special c) then
        match star_then_dollar rest with
        | Some g => Some g
        | None => suffix_search rest
        end
      else suffix_search rest
  end.

(** ** [fix_line] *)

(** The quotation-line fix of the source: a suffix ending in space, dash
    has these two characters replaced by dash, space. *)
Definition dash_fix (suffix : str) : str :=
  if endswith suffix (py " -") then py_slice suffix 0 (-2) ++ py "- "
  else suffix.

Definition fix_line (line : str) : str :=
  let prefix_match := prefix_search line in
  let suffix_match := suffix_search line in
  let prefix := match prefix_match with Some g => g | None => [] end in
  let suffix := match suffix_match with Some g => g | None => [] end in
  let suffix := dash_fix suffix in
  suffix ++ py_slice line (len prefix) (len line - len suffix) ++ prefix.

(** ** [fix_subtitles] *)

Record SrtLine := mkSrtLine {
  sequence : str;
  timing : str;
  text : list str
}.

Definition fix_subtitles (subtitles : list SrtLine) : list SrtLine :=
  fold_left
    (fun new_subtitles subtitle_line =>
       let new_text := map fix_line (text subtitle_line) in
       new_subtitles
         ++ [mkSrtLine (sequence subtitle_line) (timing subtitle_line)
               new_text])
    subtitles [].

(** What the loop body of [fix_subtitles] appends for one block. *)
Definition fix_block (b : SrtLine) : SrtLine :=
  mkSrtLine (sequence b) (timing b) (map fix_line (text b)).

(** ** [SrtParser] *)

Inductive parser_state := STATE_SEQ | STATE_TIMING | STATE_TEXT.

Record SrtParser := mkSrtParser {
  _seq : str;
  _timing : str;
  _text : list str;
  _state : parser_state;
  _lines : list SrtLine
}.

(** [SrtParser()] *)
Definition SrtParser_init : SrtParser :=
  mkSrtParser [] [] [] STATE_SEQ [].

Definition _handle_seq (self : SrtParser) (line : str) : SrtParser :=
  mkSrtParser line (_timing self) (_text self) STATE_TIMING (_lines self).

Definition _handle_timing (self : SrtParser) (line : str) : SrtParser :=
  mkSrtParser (_seq self) line (_text self) STATE_TEXT (_lines self).

Definition _handle_text (self : SrtParser) (line : str) : SrtParser :=
  if str_eqb (strip line) [] then
    mkSrtParser (_seq self) (_timing self) [] STATE_SEQ
      (_lines self ++ [mkSrtLine (_seq self) (_timing self) (_text self)])
  else
    mkSrtParser (_seq self) (_timing self) (_text self ++ [line])
      (_state self) (_lines self).

Definition _handle_line (self : SrtParser) (line : str) : SrtParser :=
  match _state self with
  | STATE_SEQ => _handle_seq self line
  | STATE_TIMING => _handle_timing self line
  | STATE_TEXT => _handle_text self line
  end.

(** The parser after the call, and the list returned (a copy of
    [_lines]). *)
Definition parse_lines (self : SrtParser) (lines : list str)
  : SrtParser * list SrtLine :=
  let self := fold_left _handle_line lines self in
  let self :=
    match _state self with
    | STATE_TEXT => _handle_text self []
    | _ => self
    end in
  (self, _lines self).

(** What [main] does with the lines of a file: a new parser, one call. *)
Definition parse (lines : list str) : list SrtLine :=
  snd (parse_lines SrtParser_init lines).

(** ** [SrtWriter] *)

(** The writer's file is the text written to it so far (as passed to
    [write], before the newline translation of the platform); it is opened
    for writing, hence empty.  A sequence of writes ends with the file
    written, or with the exception that one of the writes raised and the
    file as the writes before it left it. *)
Inductive write_result :=
| Written (file : str)
| WriteFailed (file : str) (e : exn).

(** [self._file.write(s)].  The file is opened with [encoding=utf-8] and
    strict errors, and the text is encoded as it is written: a string with
    a code point that UTF-8 cannot encode raises [UnicodeEncodeError], and
    nothing of it reaches the file. *)
Definition file_write (file : str) (s : str) : write_result :=
  if forallb encodable s then Written (file ++ s)
  else WriteFailed file UnicodeEncodeError.

(** The next write of a sequence: it runs when no write before it has
    raised. *)
Definition then_write (r : write_result) (s : str) : write_result :=
  match r with
  | Written file => file_write file s
  | WriteFailed _ _ => r
  end.

Definition SrtWriter_open : str := [].

(** The loop of [write_lines] from index [i] on; [n] is
    [len(subtitles)]. *)
Fixpoint write_lines_from (file : str) (i n : Z) (subtitles : list SrtLine)
  : write_result :=
  match subtitles with
  | [] => Written file
  | sub :: rest =>
      let r := file_write file (sequence sub ++ [newline]) in
      let r := then_write r (timing sub ++ [newline]) in
      let r :=
        fold_left (fun r line => then_write r (line ++ [newline]))
          (text sub) r in
      let r :=
        if negb (i =? n - 1)%Z then then_write r [newline] else r in
      match r with
      | Written file => write_lines_from file (i + 1) n rest
      | WriteFailed _ _ => r
      end
  end.

Definition write_lines (file : str) (subtitles : list SrtLine)
  : write_result :=
  write_lines_from file 0 (Z.of_nat (length subtitles)) subtitles.

(** What one [write_lines] of a new writer does. *)
Definition serialize (subtitles : list SrtLine) : write_result :=
  write_lines SrtWriter_open subtitles.

(** ** [get_file_lines] *)

Module Codec.

Definition bytes := list Byte.byte.

Definition b2n (b : Byte.byte) : N := Byte.to_N b.

Definition is_cont (b : N) : bool := (128 <=? b) && (b <=? 191).

Definition in_range (lo hi b : N) : bool := (lo <=? b) && (b <=? hi).

(** The range allowed to the second byte of a sequence that starts with
    [b0], in strict UTF-8: no overlong form, no surrogate, nothing above
    U+10FFFF. *)
Definition second_ok (b0 b1 : N) : bool :=
  if b0 =? 224 then in_range 160 191 b1
  else if b0 =? 237 then in_range 128 159 b1
  else if b0 =? 240 then in_range 144 191 b1
  else if b0 =? 244 then in_range 128 143 b1
  else is_cont b1.

(** The codec [utf-8] with [errors=strict]; [None] is
    [UnicodeDecodeError]. *)
Fixpoint utf_8_decode (bs : bytes) : option str :=
  match bs with
  | [] => Some []
  | x0 :: r0 =>
      let b0 := b2n x0 in
      if b0 <? 128 then option_map (cons b0) (utf_8_decode r0)
      else if in_range 194 223 b0 then
        match r0 with
        | x1 :: r1 =>
            let b1 := b2n x1 in
            if is_cont b1 then
              option_map (cons ((b0 - 192) * 64 + (b1 - 128)))
                (utf_8_decode r1)
            else None
        | _ => None
        end
      else if in_range 224 239 b0 then
        match r0 with
        | x1 :: x2 :: r2 =>
            let b1 := b2n x1 in
            let b2 := b2n x2 in
            if second_ok b0 b1 && is_cont b2 then
              option_map
                (cons ((b0 - 224) * 4096 + (b1 - 128) * 64 + (b2 - 128)))
                (utf_8_decode r2)
            else None
        | _ => None
        end
      else if in_range 240 244 b0 then
        match r0 with
        | x1 :: x2 :: x3 :: r3 =>
            let b1 := b2n x1 in
            let b2 := b2n x2 in
            let b3 := b2n x3 in
            if second_ok b0 b1 && is_cont b2 && is_cont b3 then
              option_map
                (cons ((b0 - 240) * 262144 + (b1 - 128) * 4096
                       + (b2 - 128) * 64 + (b3 - 128)))
                (utf_8_decode r3)
            else None
        | _ => None
        end
      else None
  end.

(** The upper half of the decoding table of the codec [cp1255], from byte
    128 on; [None] is a byte the code page leaves undefined. *)
Definition cp1255_high : list (option char) :=
  [
    Some 8364; None; Some 8218; Some 402; Some 8222; Some 8230; Some 8224; Some 8225;
    Some 710; Some 8240; None; Some 8249; None; None; None; None;
    None; Some 8216; Some 8217; Some 8220; Some 8221; Some 8226; Some 8211; Some 8212;
    Some 732; Some 8482; None; Some 8250; None; None; None; None;
    Some 160; Some 161; Some 162; Some 163; Some 8362; Some 165; Some 166; Some 167;
    Some 168; Some 169; Some 215; Some 171; Some 172; Some 173; Some 174; Some 175;
    Some 176; Some 177; Some 178; Some 179; Some 180; Some 181; Some 182; Some 183;
    Some 184; Some 185; Some 247; Some 187; Some 188; Some 189; Some 190; Some 191;
    Some 1456; Some 1457; Some 1458; Some 1459; Some 1460; Some 1461; Some 1462; Some 1463;
    Some 1464; Some 1465; None; Some 1467; Some 1468; Some 1469; Some 1470; Some 1471;
    Some 1472; Some 1473; Some 1474; Some 1475; Some 1520; Some 1521; Some 1522; Some 1523;
    Some 1524; None; None; None; None; None; None; None;
    Some 1488; Some 1489; Some 1490; Some 1491; Some 1492; Some 1493; Some 1494; Some 1495;
    Some 1496; Some 1497; Some 1498; Some 1499; Some 1500; Some 1501; Some 1502; Some 1503;
    Some 1504; Some 1505; Some 1506; Some 1507; Some 1508; Some 1509; Some 1510; Some 1511;
    Some 1512; Some 1513; Some 1514; None; None; Some 8206; Some 8207; None
  ].

Definition cp1255_char (b : N) : option char :=
  if b <? 128 then Some b
  else nth (N.to_nat (b - 128)) cp1255_high None.

(** The codec [cp1255] with [errors=strict]. *)
Fixpoint cp1255_decode (bs : bytes) : option str :=
  match bs with
  | [] => Some []
  | x :: rest =>
      match cp1255_char (b2n x) with
      | Some c => option_map (cons c) (cp1255_decode rest)
      | None => None
      end
  end.

(** Reading in text mode with the default [newline=None]: a carriage
    return, alone or followed by a line feed, is read as one line feed. *)
Fixpoint universal_newlines (s : str) : str :=
  match s with
  | [] => []
  | c :: rest =>
      if c =? 13 then
        newline ::
          match rest with
          | d :: rest' =>
              if d =? 10 then universal_newlines rest'
              else universal_newlines rest
          | [] => []
          end
      else c :: universal_newlines rest
  end.

(** [open(file, encoding=...).read()] on a file that holds [content]. *)
Definition read_text (decode : bytes -> option str) (content : bytes)
  : option str :=
  option_map universal_newlines (decode content).

End Codec.

Import Codec.

(** The Hebrew letter yod, U+05D9. *)
Definition yod : char := 1497.

(** [get_file_lines] on a file whose bytes are [file]. *)
Definition get_file_lines (file : bytes) : outcome (list str) :=
  let second_attempt :=
    match read_text cp1255_decode file with
    | Some content =>
        if contains yod content then Returned (splitlines content)
        else Raised DecodeError
    | None => Raised UnicodeDecodeError
    end in
  match read_text utf_8_decode file with
  | Some content =>
      if contains yod content then Returned (splitlines content)
      else second_attempt
  | None => second_attempt
  end.

(** ** The words of the specification, for comparison with the code *)

Module Spec.

(** The longest run of special characters starting at position 0. *)
Fixpoint prefix_of (line : str) : str :=
  match line with
  | [] => []
  | c :: rest => if is_special c then c :: prefix_of rest else []
  end.

(** The run of special characters that follows the last non-special
    character of the line; empty when the line has no non-special
    character. *)
Definition suffix_of (line : str) : str :=
  if forallb is_special line then []
  else rev (prefix_of (rev line)).

(** Step 3: a suffix that ends with space, dash has its last two
    characters replaced by dash, space. *)
Definition rewrite_dash (suffix : str) : str :=
  match rev suffix with
  | d :: s :: before =>
      if (d =? dash) && (s =? space) then rev before ++ [dash; space]
      else suffix
  | _ => suffix
  end.

(** The line with its first [p] and its last [q] characters removed. *)
Definition core_of (line : str) (p q : nat) : str :=
  skipn p (firstn (length line - q) line).

Definition fix_line (line : str) : str :=
  let prefix := prefix_of line in
  let suffix := rewrite_dash (suffix_of line) in
  suffix ++ core_of line (length prefix) (length suffix) ++ prefix.

(** The special set as the specification lists it, the backslash
    included. *)
Definition listed_special : list char :=
  py ".,:;'()-?!+=*&$^%#@~`" ++ [dquote] ++ py " /\".

End Spec.

(** ** Shapes used in the statements *)

(** A text line that [_handle_text] appends rather than takes for the end
    of a block. *)
Definition nonblank (t : str) : Prop := strip t <> [].

(** No character of [s] is a line boundary of [str.splitlines]. *)
Definition no_linebreak (s : str) : bool :=
  forallb (fun c => negb (is_linebreak c)) s.

(** A block whose labels and text lines are single lines, none of the text
    lines blank. *)
Definition clean_block (b : SrtLine) : Prop :=
  no_linebreak (sequence b) = true
  /\ no_linebreak (timing b) = true
  /\ Forall (fun t => no_linebreak t = true /\ nonblank t) (text b).

(** What [write_lines] writes for one block, the separator apart. *)
Definition block_text (b : SrtLine) : str :=
  (sequence b ++ [newline]) ++ (timing b ++ [newline])
  ++ concat (map (fun line => line ++ [newline]) (text b)).

(** The text of a whole file: blocks, one empty line between two. *)
Fixpoint srt_text (subtitles : list SrtLine) : str :=
  match subtitles with
  | [] => []
  | b :: rest =>
      block_text b
      ++ match rest with [] => [] | _ :: _ => [newline] ++ srt_text rest end
  end.

(** The lines of that text. *)
Fixpoint srt_lines (subtitles : list SrtLine) : list str :=
  match subtitles with
  | [] => []
  | b :: rest =>
      (sequence b :: timing b :: text b)
      ++ match rest with [] => [] | _ :: _ => [] :: srt_lines rest end
  end.

(** The parser between two blocks: every emitted block and every line held
    is as [_handle_text] lets it in. *)
Definition parser_ok (p : SrtParser) : Prop :=
  Forall nonblank (_text p)
  /\ Forall (fun b => Forall nonblank (text b)) (_lines p).

(** The first attempt of [get_file_lines] gives nothing to return: the
    file is not UTF-8, or its UTF-8 reading holds no yod. *)
Definition utf_8_without_yod (file : bytes) : Prop :=
  forall c, read_text utf_8_decode file = Some c -> contains yod c = false.

(** ** [main] and the rest of the module *)

(** The property [lines] of [SrtParser]: a copy of the blocks emitted so
    far. *)
Definition lines (self : SrtParser) : list SrtLine := _lines self.

(** The path [main] writes to: the argument without its last three
    characters, then fix.srt. *)
Definition output_path (file : str) : str :=
  py_slice file 0 (-3) ++ py "fix.srt".

(** [main] on the path [file] of a file that holds [content]: the error
    raised, or the path written to together with the text written there.
    The output file is opened only once the input is read, parsed and
    fixed, so that an error of [get_file_lines] leaves no output; an error
    of a write leaves [main] as well. *)
Definition main (file : str) (content : bytes) : outcome (str * str) :=
  match get_file_lines content with
  | Raised e => Raised e
  | Returned lines =>
      let subtitles := snd (parse_lines SrtParser_init lines) in
      let modified_subtitles := fix_subtitles subtitles in
      match write_lines SrtWriter_open modified_subtitles with
      | Written written => Returned (output_path file, written)
      | WriteFailed _ e => Raised e
      end
  end.

(** ** Further shapes used in the statements *)

Definition non_special (c : char) : bool := negb (is_special c).

(** A line with no special character at its start, none at its end, and
    no newline at its end. *)
Definition plain_line (l : str) : Prop :=
  special_run l = [] /\ special_run (rev l) = []
  /\ endswith l [newline] = false.

(** The input lines that the block being read has used so far. *)
Definition pending (p : SrtParser) : nat :=
  match _state p with
  | STATE_SEQ => 0
  | STATE_TIMING => 1
  | STATE_TEXT => 2
  end.

(** Two parsers that behave alike from now on: they differ in the blocks
    [ls] that the first one emitted before, and in fields that the next
    lines overwrite before they are read. *)
Definition same_future (ls : list SrtLine) (p q : SrtParser) : Prop :=
  _state p = _state q
  /\ _text p = _text q
  /\ _lines p = ls ++ _lines q
  /\ (_state p <> STATE_SEQ -> _seq p = _seq q)
  /\ (_state p = STATE_TEXT -> _timing p = _timing q).

(** Every line that the parser holds, in a block emitted or in the block
    being read, satisfies [P]. *)
Definition block_holds (P : str -> Prop) (b : SrtLine) : Prop :=
  P (sequence b) /\ P (timing b) /\ Forall P (text b).

Definition parser_holds (P : str -> Prop) (p : SrtParser) : Prop :=
  Forall P (_text p)
  /\ Forall (block_holds P) (_lines p)
  /\ (_state p <> STATE_SEQ -> P (_seq p))
  /\ (_state p = STATE_TEXT -> P (_timing p)).

(** A block that the writer can write: its labels and text lines hold
    encodable characters only. *)
Definition encodable_block (b : SrtLine) : Prop :=
  block_holds (fun l => forallb encodable l = true) b.

(** The file that a sequence of writes leaves. *)
Definition file_of (r : write_result) : str :=
  match r with
  | Written file => file
  | WriteFailed file _ => file
  end.

(** A block that ends inside the lines [done]: its sequence line, its
    timing line, its text lines, none of them blank, and the blank line
    that ended it stand there in a row. *)
Definition block_ended (done : list str) (b : SrtLine) : Prop :=
  exists before l rest,
    done = before ++ sequence b :: timing b :: text b ++ l :: rest
    /\ strip l = [] /\ Forall nonblank (text b).

(** The parser that has read the lines [done]: its blocks ended inside
    them, and the block being read is their end. *)
Definition parser_at (done : list str) (p : SrtParser) : Prop :=
  Forall (block_ended done) (_lines p)
  /\ match _state p with
     | STATE_SEQ => _text p = []
     | STATE_TIMING => _text p = [] /\ exists before, done = before ++ [_seq p]
     | STATE_TEXT =>
         exists before,
           done = before ++ _seq p :: _timing p :: _text p
           /\ Forall nonblank (_text p)
     end.

(** ** Evaluations *)

Example fix_line_quoted :
  fix_line ([dquote] ++ py "Hello, world!" ++ [dquote])
  = py "!" ++ [dquote] ++ py "Hello, world" ++ [dquote].
Proof. reflexivity. Qed.

Example fix_line_wait : fix_line (py "- Wait -") = py "- Wait- ".
Proof. reflexivity. Qed.

Example fix_line_empty : fix_line [] = [].
Proof. reflexivity. Qed.

(** ** Strings: basic facts *)

Lemma str_eqb_eq (a b : str) : str_eqb a b = true <-> a = b.
Proof.
  revert b; induction a as [|x a IH]; intros [|y b]; simpl;
    try (split; (discriminate || reflexivity)).
  rewrite andb_true_iff, N.eqb_eq, IH.
  split; [intros [-> ->]; reflexivity | intros [= -> ->]; auto].
Qed.

Lemma len_app (a b : str) : len (a ++ b) = (len a + len b)%Z.
Proof. unfold len; rewrite length_app; lia. Qed.

Lemma len_nonneg (a : str) : (0 <= len a)%Z.
Proof. unfold len; lia. Qed.

(** A slice with bounds inside the string is [firstn] after [skipn]. *)
Lemma py_slice_inside (s : str) (a b : nat) :
  (a <= b <= length s)%nat ->
  py_slice s (Z.of_nat a) (Z.of_nat b) = firstn (b - a) (skipn a s).
Proof.
  intros H. unfold py_slice, clamp_index, len.
  destruct (Z.ltb_spec (Z.of_nat a) 0); [lia|].
  destruct (Z.ltb_spec (Z.of_nat b) 0); [lia|].
  rewrite !Z.min_l by lia.
  replace (Z.to_nat (Z.of_nat b - Z.of_nat a)) with (b - a)%nat by lia.
  now rewrite Nat2Z.id.
Qed.

Lemma py_slice_middle (p c s : str) :
  py_slice (p ++ c ++ s) (len p) (len (p ++ c ++ s) - len s) = c.
Proof.
  unfold len at 1 2 3.
  replace (Z.of_nat (length (p ++ c ++ s)) - Z.of_nat (length s))%Z
    with (Z.of_nat (length p + length c)).
  2:{ rewrite !length_app; lia. }
  rewrite py_slice_inside by (rewrite !length_app; lia).
  rewrite skipn_app, skipn_all, Nat.sub_diag; simpl.
  replace (length p + length c - length p)%nat with (length c) by lia.
  rewrite firstn_app, firstn_all, Nat.sub_diag; simpl.
  now rewrite app_nil_r.
Qed.

(** [s[:-2]] when [s] ends with two given characters. *)
Lemma endswith_two (s : str) (x y : char) :
  endswith s [x; y] = true ->
  exists before, s = before ++ [x; y] /\ py_slice s 0 (-2) = before.
Proof.
  unfold endswith; rewrite andb_true_iff, Nat.leb_le, str_eqb_eq.
  simpl length. intros [Hlen Htail].
  exists (firstn (length s - 2) s). split.
  - rewrite <- Htail. symmetry. apply firstn_skipn.
  - unfold py_slice, clamp_index, len.
    change (0 <? 0)%Z with false. change (-2 <? 0)%Z with true. cbv iota.
    rewrite Z.min_l by lia. rewrite Z.max_r by lia.
    rewrite Z.sub_0_r. change (Z.to_nat 0) with 0%nat.
    rewrite skipn_O. f_equal. lia.
Qed.

Lemma endswith_app_two (before : str) (x y : char) :
  endswith (before ++ [x; y]) [x; y] = true.
Proof.
  unfold endswith. rewrite andb_true_iff, Nat.leb_le, str_eqb_eq.
  rewrite length_app; simpl. split; [lia|].
  replace (length before + 2 - 2)%nat with (length before) by lia.
  now rewrite skipn_app, skipn_all, Nat.sub_diag.
Qed.

(** ** The special set *)

Lemma class_members_value :
  class_members SPECIAL_CHARS_RE_SET
  = py ".,:;'()-?!+=*&$^%#@~`" ++ [dquote] ++ py " /".
Proof. reflexivity. Qed.

Lemma is_special_In (c : char) :
  is_special c = true
  <-> In c (py ".,:;'()-?!+=*&$^%#@~`" ++ [dquote] ++ py " /").
Proof.
  unfold is_special. rewrite class_members_value, existsb_exists.
  split.
  - intros (x & Hin & Heq). apply N.eqb_eq in Heq. now subst.
  - intros Hin. exists c. split; [assumption | apply N.eqb_refl].
Qed.

Lemma newline_not_special : is_special newline = false.
Proof. reflexivity. Qed.

(** C2 (as amended): a character is special exactly when it is one of the
    24 characters . , : ; ' ( ) - ? ! + = * & $ ^ % # @ ~ ` and the double
    quote, the space and the forward slash; the backslash, which the
    constant holds only to escape the character after it, is not. *)
Theorem C2_special_set_without_backslash :
  (forall c : char,
      is_special c = true
      <-> In c (py ".,:;'()-?!+=*&$^%#@~`" ++ [dquote] ++ py " /"))
  /\ is_special backslash = false
  /\ length (class_members SPECIAL_CHARS_RE_SET) = 24%nat.
Proof.
  split; [exact is_special_In | split; reflexivity].
Qed.

(** C2, as written, fails at the backslash: the set the specification
    lists holds it and the class of the code does not. *)
Lemma C2_backslash_counterexample :
  In backslash Spec.listed_special /\ is_special backslash = false
  /\ ~ (forall c : char, is_special c = true <-> In c Spec.listed_special).
Proof.
  assert (Hin : In backslash Spec.listed_special).
  { unfold Spec.listed_special. apply in_or_app; right.
    apply in_or_app; right. simpl. tauto. }
  split; [exact Hin | split; [reflexivity|]].
  intros H. apply H in Hin. discriminate Hin.
Qed.

(** ** [fix_subtitles] *)

Lemma fix_subtitles_loop (acc subtitles : list SrtLine) :
  fold_left
    (fun new_subtitles subtitle_line =>
       new_subtitles
         ++ [mkSrtLine (sequence subtitle_line) (timing subtitle_line)
               (map fix_line (text subtitle_line))])
    subtitles acc
  = acc ++ map fix_block subtitles.
Proof.
  revert acc; induction subtitles as [|b rest IH]; intros acc; simpl.
  - now rewrite app_nil_r.
  - rewrite IH, <- app_assoc. reflexivity.
Qed.

Lemma fix_subtitles_map (subtitles : list SrtLine) :
  fix_subtitles subtitles = map fix_block subtitles.
Proof. unfold fix_subtitles. apply (fix_subtitles_loop []). Qed.

(** C6: [fix_subtitles] returns as many blocks as it is given, in the same
    order; block by block the sequence and timing labels are the input's
    and the text is [fix_line] mapped over the input's text lines (same
    number, same order).  It is a function of its argument alone. *)
Theorem C6_fix_subtitles_frame (subtitles : list SrtLine) :
  length (fix_subtitles subtitles) = length subtitles
  /\ map sequence (fix_subtitles subtitles) = map sequence subtitles
  /\ map timing (fix_subtitles subtitles) = map timing subtitles
  /\ map text (fix_subtitles subtitles)
     = map (fun b => map fix_line (text b)) subtitles
  /\ map (fun b => length (text b)) (fix_subtitles subtitles)
     = map (fun b => length (text b)) subtitles.
Proof.
  rewrite fix_subtitles_map.
  rewrite length_map, !map_map. simpl.
  repeat split; try reflexivity.
  apply map_ext; intros b. apply length_map.
Qed.

(** C9: [fix_line] is not idempotent: on the line dot, a it moves the dot
    to the end, and applied again it moves the dot back. *)
Theorem C9_fix_line_not_idempotent :
  exists s : str, fix_line (fix_line s) <> fix_line s.
Proof. exists (py ".a"). vm_compute. discriminate. Qed.

(** ** The searches of [fix_line] *)

Section Searches.

Lemma forallb_rev {A} (f : A -> bool) (l : list A) :
  forallb f (rev l) = forallb f l.
Proof.
  induction l as [|x l IH]; simpl; [reflexivity|].
  rewrite forallb_app, IH; simpl. rewrite andb_true_r. apply andb_comm.
Qed.

Lemma special_run_spec (line : str) : special_run line = Spec.prefix_of line.
Proof.
  induction line as [|c rest IH]; simpl; [reflexivity|].
  now rewrite IH.
Qed.

Lemma special_run_all (s : str) : forallb is_special s = true -> special_run s = s.
Proof.
  induction s as [|c s IH]; simpl; [reflexivity|].
  rewrite andb_true_iff; intros [-> H]. now rewrite IH.
Qed.

Lemma special_run_stop (p : str) (c : char) (t : str) :
  forallb is_special p = true -> is_special c = false -> special_run (p ++ c :: t) = p.
Proof.
  intros Hp Hc. induction p as [|x p IH]; simpl in *.
  - now rewrite Hc.
  - apply andb_true_iff in Hp as [-> Hp]. now rewrite IH.
Qed.

(** The prefix found is an initial segment of the line, and it ends at the
    first character that is not special. *)
Lemma special_run_split (line : str) :
  exists rest, line = special_run line ++ rest
    /\ forallb is_special (special_run line) = true
    /\ match rest with [] => True | c :: _ => is_special c = false end.
Proof.
  induction line as [|c line (rest & E & A & F)]; simpl.
  - exists []. auto.
  - destruct (is_special c) eqn:Hc.
    + exists rest. simpl. rewrite Hc, A. rewrite <- E. auto.
    + exists (c :: line). simpl. auto.
Qed.

Lemma star_then_dollar_all (s : str) :
  forallb is_special s = true -> star_then_dollar s = Some s.
Proof.
  induction s as [|c s IH]; simpl; [reflexivity|].
  rewrite andb_true_iff; intros [-> H]. now rewrite IH.
Qed.

(** A run of special characters followed by the newline that ends the
    string: [$] holds before that newline. *)
Lemma star_then_dollar_before_newline (s : str) :
  forallb is_special s = true -> star_then_dollar (s ++ [newline]) = Some s.
Proof.
  induction s as [|c s IH]; simpl; [reflexivity|].
  rewrite andb_true_iff; intros [-> H]. now rewrite IH.
Qed.

Lemma at_dollar_app_cons (x : char) (p : str) (c : char) (t : str) :
  at_dollar (x :: p ++ c :: t) = false.
Proof. destruct p; reflexivity. Qed.

(** A character that is not special, and at which [$] does not hold, stops
    every attempt that starts before it. *)
Lemma star_then_dollar_blocked (p : str) (c : char) (t : str) :
  is_special c = false -> at_dollar (c :: t) = false ->
  star_then_dollar (p ++ c :: t) = None.
Proof.
  intros Hc Hd. induction p as [|x p IH].
  - simpl app. cbn [star_then_dollar]. now rewrite Hc, Hd.
  - change ((x :: p) ++ c :: t) with (x :: p ++ c :: t).
    cbn [star_then_dollar]. rewrite IH, at_dollar_app_cons.
    now destruct (is_special x).
Qed.

Lemma suffix_search_all (line : str) :
  forallb is_special line = true -> suffix_search line = None.
Proof.
  induction line as [|c s IH]; simpl; [reflexivity|].
  rewrite andb_true_iff; intros [-> H]. simpl. auto.
Qed.

(** The leftmost match starts at the last character [c] that is neither
    special nor the newline that ends the string. *)
Lemma suffix_search_leftmost (p : str) (c : char) (t g : str) :
  is_special c = false -> at_dollar (c :: t) = false ->
  star_then_dollar t = Some g ->
  suffix_search (p ++ c :: t) = Some g.
Proof.
  intros Hc Hd Ht. induction p as [|x p IH].
  - simpl. now rewrite Hc, Ht.
  - change ((x :: p) ++ c :: t) with (x :: p ++ c :: t).
    cbn [suffix_search]. rewrite IH.
    rewrite (star_then_dollar_blocked p c t Hc Hd).
    now destruct (is_special x).
Qed.

(** A line with a character that is not special splits at the last one. *)
Lemma last_non_special (line : str) :
  forallb is_special line = false ->
  exists p c s, line = p ++ c :: s /\ is_special c = false /\ forallb is_special s = true.
Proof.
  induction line as [|x line IH]; simpl; [discriminate|].
  destruct (forallb is_special line) eqn:Hl.
  - rewrite andb_true_r. intros Hx. exists [], x, line. auto.
  - intros _. destruct (IH eq_refl) as (p & c & s & -> & Hc & Hs).
    exists (x :: p), c, s. auto.
Qed.

Lemma forallb_split_false (p : str) (c : char) (s : str) :
  is_special c = false -> forallb is_special (p ++ c :: s) = false.
Proof.
  intros Hc. rewrite forallb_app. simpl. rewrite Hc.
  apply andb_false_r.
Qed.

Lemma spec_suffix_of_split (p : str) (c : char) (s : str) :
  is_special c = false -> forallb is_special s = true ->
  Spec.suffix_of (p ++ c :: s) = s.
Proof.
  intros Hc Hs. unfold Spec.suffix_of.
  rewrite forallb_split_false by assumption.
  rewrite rev_app_distr. simpl. rewrite <- app_assoc. simpl.
  rewrite <- special_run_spec, special_run_stop.
  - apply rev_involutive.
  - now rewrite forallb_rev.
  - exact Hc.
Qed.

Lemma spec_suffix_of_all (line : str) :
  forallb is_special line = true -> Spec.suffix_of line = [].
Proof. unfold Spec.suffix_of. now intros ->. Qed.

End Searches.

(** ** The dash rewrite *)

Lemma py_space_dash : py " -" = [space; dash].
Proof. reflexivity. Qed.

Lemma py_dash_space : py "- " = [dash; space].
Proof. reflexivity. Qed.

Lemma dash_fix_spec (suffix : str) : dash_fix suffix = Spec.rewrite_dash suffix.
Proof.
  unfold dash_fix, Spec.rewrite_dash.
  rewrite py_space_dash, py_dash_space.
  destruct (endswith suffix [space; dash]) eqn:He.
  - destruct (endswith_two _ _ _ He) as (before & -> & ->).
    rewrite rev_app_distr. simpl. now rewrite rev_involutive.
  - destruct (rev suffix) as [|d [|s before]] eqn:Hr; try reflexivity.
    destruct ((d =? dash) && (s =? space)) eqn:Ht; [|reflexivity].
    apply andb_true_iff in Ht as [Hd Hsp].
    apply N.eqb_eq in Hd, Hsp. subst d s.
    assert (E : suffix = rev before ++ [space; dash]).
    { rewrite <- (rev_involutive suffix), Hr. simpl.
      now rewrite <- app_assoc. }
    rewrite E, endswith_app_two in He. discriminate.
Qed.

Lemma dash_fix_hit (before : str) :
  dash_fix (before ++ [space; dash]) = before ++ [dash; space].
Proof.
  unfold dash_fix. rewrite py_space_dash, py_dash_space.
  rewrite endswith_app_two.
  destruct (endswith_two _ _ _ (endswith_app_two before space dash))
    as (b & E & ->).
  apply app_inv_tail in E. now subst b.
Qed.

Lemma dash_fix_length (suffix : str) : length (dash_fix suffix) = length suffix.
Proof.
  unfold dash_fix. rewrite py_space_dash, py_dash_space.
  destruct (endswith suffix [space; dash]) eqn:He; [|reflexivity].
  destruct (endswith_two _ _ _ He) as (before & -> & ->).
  now rewrite !length_app.
Qed.

Lemma dash_fix_perm (suffix : str) : Permutation (dash_fix suffix) suffix.
Proof.
  unfold dash_fix. rewrite py_space_dash, py_dash_space.
  destruct (endswith suffix [space; dash]) eqn:He; [|reflexivity].
  destruct (endswith_two _ _ _ He) as (before & -> & ->).
  apply Permutation_app_head, perm_swap.
Qed.

Lemma len_dash_fix (suffix : str) : len (dash_fix suffix) = len suffix.
Proof. unfold len. now rewrite dash_fix_length. Qed.

(** ** [fix_line] against the algorithm of the specification *)

Section FixLine.

Lemma spec_core_of_middle (p c s : str) :
  Spec.core_of (p ++ c ++ s) (length p) (length s) = c.
Proof.
  unfold Spec.core_of.
  replace (length (p ++ c ++ s) - length s)%nat
    with (length (p ++ c) + 0)%nat by (rewrite !length_app; lia).
  rewrite app_assoc, firstn_app_2. simpl. rewrite app_nil_r.
  now rewrite skipn_app, skipn_all, Nat.sub_diag.
Qed.

(** The prefix found stops before the character [c] when [c] is not
    special. *)
Lemma special_run_within (p : str) (c : char) (t : str) :
  is_special c = false ->
  exists core, p ++ [c] = special_run (p ++ c :: t) ++ core.
Proof.
  intros Hc. induction p as [|x p (core & E)]; simpl.
  - rewrite Hc. now exists [c].
  - destruct (is_special x).
    + exists core. simpl. now rewrite <- E.
    + now exists (x :: p ++ [c]).
Qed.

(** A line made of special characters only is returned as it is: the
    prefix is the whole line and the suffix search finds nothing. *)
Lemma fix_line_all_special (line : str) :
  forallb is_special line = true ->
  fix_line line = line /\ Spec.fix_line line = line.
Proof.
  intros H. unfold fix_line, Spec.fix_line, prefix_search.
  rewrite (suffix_search_all _ H), (special_run_all _ H).
  rewrite (spec_suffix_of_all _ H), <- special_run_spec.
  rewrite (special_run_all _ H).
  change (dash_fix []) with (@nil char).
  change (Spec.rewrite_dash []) with (@nil char).
  split.
  - generalize (py_slice_middle line [] []). rewrite !app_nil_r.
    simpl app. now intros ->.
  - unfold Spec.core_of. simpl.
    now rewrite Nat.sub_0_r, firstn_all, skipn_all.
Qed.

(** The line split at the character [c] where the suffix search matches:
    the result is the rewritten suffix, the core and the prefix. *)
Lemma fix_line_split (p : str) (c : char) (s : str) :
  is_special c = false -> forallb is_special s = true ->
  at_dollar (c :: s) = false ->
  exists core,
    p ++ c :: s = special_run (p ++ c :: s) ++ core ++ s
    /\ suffix_search (p ++ c :: s) = Some s
    /\ fix_line (p ++ c :: s)
       = dash_fix s ++ core ++ special_run (p ++ c :: s)
    /\ Spec.fix_line (p ++ c :: s)
       = dash_fix s ++ core ++ special_run (p ++ c :: s).
Proof.
  intros Hc Hs Hd.
  destruct (special_run_within p c s Hc) as (core & E).
  assert (Hsearch : suffix_search (p ++ c :: s) = Some s)
    by (apply suffix_search_leftmost; auto using star_then_dollar_all).
  assert (Hline : p ++ c :: s = special_run (p ++ c :: s) ++ core ++ s).
  { rewrite (app_assoc (special_run (p ++ c :: s)) core s), <- E.
    now rewrite <- app_assoc. }
  exists core. repeat split; try assumption.
  - unfold fix_line, prefix_search. rewrite Hsearch.
    rewrite len_dash_fix. f_equal. f_equal.
    set (pre := special_run (p ++ c :: s)) in *.
    rewrite Hline. apply py_slice_middle.
  - unfold Spec.fix_line.
    rewrite (spec_suffix_of_split p c s Hc Hs), <- dash_fix_spec.
    rewrite <- special_run_spec, dash_fix_length. f_equal. f_equal.
    set (pre := special_run (p ++ c :: s)) in *.
    rewrite Hline. apply spec_core_of_middle.
Qed.

Lemma endswith_last (p : str) (c d : char) :
  endswith (p ++ [c]) [d] = (c =? d).
Proof.
  unfold endswith. rewrite length_app. simpl length.
  replace (1 <=? length p + 1)%nat with true
    by (symmetry; apply Nat.leb_le; lia).
  replace (length p + 1 - 1)%nat with (length p) by lia.
  rewrite skipn_app, skipn_all, Nat.sub_diag.
  cbn [skipn app str_eqb andb]. apply andb_true_r.
Qed.

(** Where the line ends decides whether [$] can hold before its last
    character. *)
Lemma at_dollar_of_endswith (p : str) (c : char) (s : str) :
  forallb is_special s = true ->
  endswith (p ++ c :: s) [newline] = false ->
  at_dollar (c :: s) = false.
Proof.
  intros Hs He. destruct s as [|x s]; [|reflexivity].
  rewrite endswith_last in He. exact He.
Qed.

(** The code agrees with the algorithm of the specification on every line
    that does not end with a newline. *)
Lemma fix_line_refines_spec (line : str) :
  endswith line [newline] = false -> fix_line line = Spec.fix_line line.
Proof.
  intros He. destruct (forallb is_special line) eqn:Hall.
  - destruct (fix_line_all_special line Hall) as [-> ->]. reflexivity.
  - destruct (last_non_special line Hall) as (p & c & s & -> & Hc & Hs).
    destruct (fix_line_split p c s Hc Hs) as (core & _ & _ & -> & ->);
      [|reflexivity].
    eapply at_dollar_of_endswith; eassumption.
Qed.

(** On such a line the result is a rearrangement of the line. *)
Lemma fix_line_perm (line : str) :
  endswith line [newline] = false ->
  Permutation (fix_line line) line /\ length (fix_line line) = length line.
Proof.
  intros He.
  assert (P : Permutation (fix_line line) line).
  { destruct (forallb is_special line) eqn:Hall.
    - destruct (fix_line_all_special line Hall) as [-> _]. reflexivity.
    - destruct (last_non_special line Hall) as (p & c & s & -> & Hc & Hs).
      destruct (fix_line_split p c s Hc Hs) as (core & E & _ & F & _).
      { eapply at_dollar_of_endswith; eassumption. }
      rewrite F. set (pre := special_run (p ++ c :: s)) in *.
      rewrite E, (dash_fix_perm s).
      rewrite (Permutation_app_comm s (core ++ pre)), <- app_assoc.
      rewrite (Permutation_app_comm pre (core ++ s)), <- app_assoc.
      apply Permutation_app_head, Permutation_app_comm. }
  split; [exact P | now apply Permutation_length].
Qed.

End FixLine.

(** ** Lines that end with a newline *)

(** When the last character is a newline and a run of special characters
    [r :: run] stands before it, [$] holds before that newline: the search
    returns the run as the suffix, although the newline follows it.  The
    slice then ends one character after the core, so that the result holds
    [r] twice and the newline not at all. *)
Lemma fix_line_before_final_newline (p : str) (d r : char) (run : str) :
  is_special d = false -> forallb is_special (r :: run) = true ->
  exists core,
    p ++ [d] = special_run (p ++ d :: (r :: run) ++ [newline]) ++ core
    /\ suffix_search (p ++ d :: (r :: run) ++ [newline]) = Some (r :: run)
    /\ fix_line (p ++ d :: (r :: run) ++ [newline])
       = dash_fix (r :: run) ++ (core ++ [r])
         ++ special_run (p ++ d :: (r :: run) ++ [newline]).
Proof.
  intros Hd Hrun.
  set (line := p ++ d :: (r :: run) ++ [newline]).
  destruct (special_run_within p d ((r :: run) ++ [newline]) Hd)
    as (core & E).
  fold line in E.
  assert (Hsearch : suffix_search line = Some (r :: run)).
  { apply suffix_search_leftmost; auto.
    now apply star_then_dollar_before_newline. }
  exists core. repeat split; try assumption.
  unfold fix_line, prefix_search. rewrite Hsearch, len_dash_fix.
  f_equal. f_equal.
  assert (Hline : line = special_run line ++ (core ++ [r])
                           ++ (run ++ [newline])).
  { unfold line at 1.
    change (d :: (r :: run) ++ [newline])
      with ([d] ++ [r] ++ run ++ [newline]).
    rewrite (app_assoc p [d]), E, <- !app_assoc. reflexivity. }
  set (pre := special_run line) in *.
  replace (len (r :: run)) with (len (run ++ [newline]))
    by (unfold len; rewrite length_app; simpl; lia).
  rewrite Hline. apply py_slice_middle.
Qed.

(** A line with no special character at its start and none at its end is
    returned as it is, when it does not end with a newline. *)
Lemma fix_line_plain_ends (line : str) :
  special_run line = [] -> special_run (rev line) = [] ->
  endswith line [newline] = false ->
  fix_line line = line.
Proof.
  intros Hstart Hend He.
  destruct (forallb is_special line) eqn:Hall.
  - apply (fix_line_all_special line Hall).
  - destruct (last_non_special line Hall) as (p & c & s & -> & Hc & Hs).
    assert (s = []) as ->.
    { rewrite rev_app_distr in Hend. simpl in Hend.
      rewrite <- app_assoc in Hend. simpl in Hend.
      rewrite special_run_stop in Hend; [|now rewrite forallb_rev|exact Hc].
      apply (f_equal (@rev char)) in Hend.
      now rewrite rev_involutive in Hend. }
    destruct (fix_line_split p c [] Hc Hs) as (core & E & _ & F & _).
    { eapply at_dollar_of_endswith; eassumption. }
    rewrite F, Hstart. rewrite Hstart in E. simpl in E. simpl.
    now rewrite E.
Qed.

(** ** Claims on [fix_line] *)

(** C1: [fix_line] returns suffix, core, prefix as the specification
    computes them on every line that does not end with a newline (lemma
    [fix_line_refines_spec]).  On the line a, dot, newline the code
    departs from it: the suffix search returns the dot that stands before
    the final newline, where the specification has the empty run that
    follows the last non-special character (the newline), and the result is
    dot, a, dot instead of the line itself. *)
Theorem C1_fix_line_final_newline :
  let line := py "a." ++ [newline] in
  prefix_search line = Some []
  /\ suffix_search line = Some (py ".")
  /\ Spec.suffix_of line = []
  /\ fix_line line = py ".a."
  /\ Spec.fix_line line = line
  /\ fix_line line <> Spec.fix_line line.
Proof. vm_compute. repeat split; discriminate. Qed.

(** C3 (as amended): a suffix found by the search that ends with space,
    dash enters the result with these two characters replaced by dash,
    space, and it enters it in front of the core.  On the line dash, space,
    Wait, space, dash the prefix found is dash, space, the suffix found is
    space, dash, it is rewritten to dash, space, and the result is that
    rewritten suffix, the core Wait and the prefix: the rewritten dash is
    the first character of the result, its space stands directly before the
    core, and the relocated prefix follows the core and ends the line. *)
Theorem C3_dash_rewrite :
  (forall line suffix : str,
      suffix_search line = Some suffix ->
      endswith suffix (py " -") = true ->
      exists before,
        suffix = before ++ py " -"
        /\ fix_line line
           = (before ++ py "- ")
             ++ py_slice line (len (special_run line))
                  (len line - len suffix)
             ++ special_run line)
  /\ suffix_search (py "- Wait -") = Some (py " -")
  /\ dash_fix (py " -") = py "- "
  /\ py_slice (py "- Wait -") (len (py "- ")) (len (py "- Wait -") - 2)
     = py "Wait"
  /\ fix_line (py "- Wait -") = py "- " ++ py "Wait" ++ [dash; space]
  /\ special_run (py "- Wait -") = py "- "
  /\ fix_line (py "- Wait -")
     = dash_fix (py " -") ++ py "Wait" ++ special_run (py "- Wait -")
  /\ firstn 2 (fix_line (py "- Wait -")) = dash_fix (py " -")
  /\ skipn 6 (fix_line (py "- Wait -")) = special_run (py "- Wait -").
Proof.
  split; [|repeat split; reflexivity].
  intros line suffix Hs He.
  rewrite py_space_dash in *.
  destruct (endswith_two _ _ _ He) as (before & E & _).
  exists before. split; [exact E|].
  unfold fix_line, prefix_search. rewrite Hs.
  rewrite len_dash_fix. subst suffix. now rewrite dash_fix_hit.
Qed.

Lemma C3_dash_rewrite_witness :
  suffix_search (py "x -") = Some (py " -")
  /\ endswith (py " -") (py " -") = true
  /\ exists before,
       py " -" = before ++ py " -"
       /\ fix_line (py "x -")
          = (before ++ py "- ")
            ++ py_slice (py "x -") (len (special_run (py "x -")))
                 (len (py "x -") - len (py " -"))
            ++ special_run (py "x -").
Proof.
  split; [reflexivity | split; [reflexivity|]].
  apply (proj1 C3_dash_rewrite (py "x -") (py " -")); reflexivity.
Defined.

(** C3, as written, fails in its last part.  The rewritten suffix does not
    follow the core: the result is not the core, then dash, space, then the
    relocated prefix; the rewritten dash is its first character, before the
    core.  The dash that follows the core in the result is the prefix's
    own: with the prefix ( in place of dash, space, the same suffix is
    rewritten and no dash follows the core. *)
Lemma C3_dash_placement_counterexample :
  fix_line (py "- Wait -")
  <> py "Wait" ++ dash_fix (py " -") ++ special_run (py "- Wait -")
  /\ firstn 2 (fix_line (py "- Wait -")) = dash_fix (py " -")
  /\ firstn 4 (skipn 2 (fix_line (py "- Wait -"))) = py "Wait"
  /\ suffix_search (py "(Wait -") = Some (py " -")
  /\ fix_line (py "(Wait -") = py "- " ++ py "Wait" ++ py "("
  /\ nth_error (fix_line (py "(Wait -")) 6 = Some 40.
Proof.
  split; [vm_compute; discriminate | repeat split; reflexivity].
Qed.

(** C4: a line made of special characters only, and the empty line, are
    returned as they are (lemma [fix_line_all_special]); so is a line
    without a special character at either end, unless it ends with a
    newline (lemma [fix_line_plain_ends]).  The line a, dot, newline has no
    special character at either end, and [fix_line] returns dot, a, dot. *)
Theorem C4_fix_line_identity_final_newline :
  let s := py "a." ++ [newline] in
  hd_error s = Some 97 /\ is_special 97 = false
  /\ last s 0 = newline /\ is_special newline = false
  /\ fix_line s = py ".a."
  /\ fix_line s <> s
  /\ fix_line [] = []
  /\ fix_line (py "...") = py "...".
Proof.
  repeat split; try reflexivity; vm_compute; discriminate.
Qed.

(** C10: on a line that does not end with a newline the result is a
    rearrangement of the line (lemma [fix_line_perm]).  On the line a, dot,
    newline it is not: prefix, core and suffix found make a, dot, dot, the
    result dot, a, dot has lost the newline and holds the dot twice. *)
Theorem C10_fix_line_not_permutation :
  let s := py "a." ++ [newline] in
  fix_line s = py ".a."
  /\ ~ Permutation (fix_line s) s
  /\ special_run s
       ++ py_slice s (len (special_run s)) (len s - len (py "."))
       ++ py "."
     <> s.
Proof.
  cbv zeta. split; [reflexivity | split].
  - intros P. apply Permutation_sym in P.
    assert (H : In newline (fix_line (py "a." ++ [newline]))).
    { eapply Permutation_in; [exact P|]. apply in_or_app. right. now left. }
    vm_compute in H. intuition discriminate.
  - vm_compute. discriminate.
Qed.

(** ** [SrtParser]: what an emitted block holds *)

Section ParserInvariant.

Lemma handle_line_ok (p : SrtParser) (line : str) :
  parser_ok p -> parser_ok (_handle_line p line).
Proof.
  intros [Ht Hl]. unfold _handle_line.
  destruct (_state p); try (split; assumption).
  unfold _handle_text.
  destruct (str_eqb (strip line) []) eqn:Hb; split; simpl; auto.
  - apply Forall_app. split; [assumption|]. constructor; [exact Ht|constructor].
  - apply Forall_app. split; [assumption|]. constructor; [|constructor].
    intros E. apply str_eqb_eq in E. congruence.
Qed.

Lemma handle_lines_ok (lines : list str) (p : SrtParser) :
  parser_ok p -> parser_ok (fold_left _handle_line lines p).
Proof.
  revert p. induction lines as [|l lines IH]; intros p H; simpl; auto.
  apply IH, handle_line_ok, H.
Qed.

Lemma handle_text_ok (p : SrtParser) (line : str) :
  parser_ok p -> parser_ok (_handle_text p line).
Proof.
  intros [Ht Hl]. unfold _handle_text.
  destruct (str_eqb (strip line) []) eqn:Hb; split; simpl; auto.
  - apply Forall_app. split; [assumption|]. constructor; [exact Ht|constructor].
  - apply Forall_app. split; [assumption|]. constructor; [|constructor].
    intros E. apply str_eqb_eq in E. congruence.
Qed.

Lemma parse_lines_ok (p : SrtParser) (lines : list str) :
  parser_ok p -> parser_ok (fst (parse_lines p lines)).
Proof.
  intros H. unfold parse_lines. simpl.
  pose proof (handle_lines_ok lines p H) as H'.
  destruct (_state (fold_left _handle_line lines p)); auto.
  now apply handle_text_ok.
Qed.

Lemma parser_init_ok : parser_ok SrtParser_init.
Proof. split; constructor. Qed.

End ParserInvariant.

(** ** [SrtParser]: each block against the input *)

Section ParserBlocks.

Lemma block_ended_more (done : list str) (l : str) (b : SrtLine) :
  block_ended done b -> block_ended (done ++ [l]) b.
Proof.
  intros (before & l0 & rest & E & Hl & Hn).
  exists before, l0, (rest ++ [l]). repeat split; auto.
  rewrite E. rewrite <- !app_assoc. simpl. rewrite <- app_assoc.
  reflexivity.
Qed.

Lemma handle_line_at (done : list str) (p : SrtParser) (l : str) :
  parser_at done p -> parser_at (done ++ [l]) (_handle_line p l).
Proof.
  intros [Hb Hst].
  assert (Hb' : Forall (block_ended (done ++ [l])) (_lines p)).
  { eapply Forall_impl; [|exact Hb]. apply block_ended_more. }
  unfold _handle_line. destruct (_state p) eqn:Hp.
  - split; simpl; auto. split; [exact Hst | now exists done].
  - destruct Hst as (Ht & before & E).
    split; simpl; auto. exists before. rewrite Ht, E.
    split; [|constructor]. now rewrite <- app_assoc.
  - destruct Hst as (before & E & Hn). unfold _handle_text.
    destruct (str_eqb (strip l) []) eqn:Hl.
    + apply str_eqb_eq in Hl. split; simpl; auto.
      apply Forall_app. split; [exact Hb'|]. constructor; [|constructor].
      exists before, l, []. simpl. repeat split; auto.
      rewrite E. rewrite <- app_assoc. reflexivity.
    + split; simpl; auto. rewrite Hp. exists before. split.
      * rewrite E. rewrite <- app_assoc. reflexivity.
      * apply Forall_app. split; [exact Hn|]. constructor; [|constructor].
        intros H. apply str_eqb_eq in H. congruence.
Qed.

Lemma handle_lines_at (todo done : list str) (p : SrtParser) :
  parser_at done p ->
  parser_at (done ++ todo) (fold_left _handle_line todo p).
Proof.
  revert done p. induction todo as [|l todo IH]; intros done p H; simpl.
  - now rewrite app_nil_r.
  - replace (done ++ l :: todo) with ((done ++ [l]) ++ todo)
      by (now rewrite <- app_assoc).
    apply IH, handle_line_at, H.
Qed.

Lemma parser_init_at : parser_at [] SrtParser_init.
Proof. split; simpl; auto. Qed.

(** Every block returned stands in the input: its two labels in a row,
    then its text lines, none of them blank, then a blank line or the end
    of the input. *)
Lemma parse_blocks_in_input (input : list str) (b : SrtLine) :
  In b (parse input) ->
  exists before rest,
    input = before ++ sequence b :: timing b :: text b ++ rest
    /\ Forall nonblank (text b)
    /\ match rest with [] => True | l :: _ => strip l = [] end.
Proof.
  unfold parse, parse_lines. simpl.
  pose proof (handle_lines_at input [] SrtParser_init parser_init_at)
    as [Hb Hst].
  simpl in Hb, Hst.
  set (p := fold_left _handle_line input SrtParser_init) in *.
  assert (Hended : forall b', In b' (_lines p) ->
            exists before rest,
              input = before ++ sequence b' :: timing b' :: text b' ++ rest
              /\ Forall nonblank (text b')
              /\ match rest with [] => True | l :: _ => strip l = [] end).
  { intros b' Hin. rewrite Forall_forall in Hb.
    destruct (Hb b' Hin) as (before & l & rest & E & Hl & Hn).
    exists before, (l :: rest). auto. }
  destruct (_state p) eqn:Hp; try apply Hended.
  unfold _handle_text. change (str_eqb (strip []) []) with true.
  simpl. intros Hin. apply in_app_or in Hin as [Hin|[<-|[]]].
  - now apply Hended.
  - destruct Hst as (before & E & Hn). simpl.
    exists before, []. rewrite app_nil_r. auto.
Qed.

End ParserBlocks.

(** C8 (as amended): every block that [parse_lines] returns has a sequence
    label and a timing label, two lines of the input in a row, and its text
    is the run of lines, none of them blank, that follows the timing line
    up to the next blank line or the end of the input.  So the text of a
    block is empty exactly when a blank line or the end of the input
    directly follows its timing line; any other block has text. *)
Theorem C8_block_text_after_timing (input : list str) (b : SrtLine) :
  In b (parse input) ->
  exists before after,
    input = before ++ sequence b :: timing b :: after
    /\ (text b = []
        <-> match after with [] => True | l :: _ => strip l = [] end)
    /\ exists rest,
         after = text b ++ rest
         /\ Forall nonblank (text b)
         /\ match rest with [] => True | l :: _ => strip l = [] end.
Proof.
  intros Hb.
  destruct (parse_blocks_in_input input b Hb) as (before & rest & E & Hn & Hr).
  exists before, (text b ++ rest). split; [exact E | split].
  - split.
    + intros ->. exact Hr.
    + destruct (text b) as [|t ts]; [reflexivity|].
      simpl. intros H. inversion Hn as [|? ? Ht _]. contradiction.
  - exists rest. auto.
Qed.

Lemma C8_block_text_after_timing_witness :
  In (mkSrtLine (py "1") (py "t") [py "a"])
     (parse [py "1"; py "t"; py "a"; []; py "2"])
  /\ exists before after,
       [py "1"; py "t"; py "a"; []; py "2"]
       = before ++ py "1" :: py "t" :: after
       /\ exists rest, after = [py "a"] ++ rest.
Proof.
  assert (H : In (mkSrtLine (py "1") (py "t") [py "a"])
                 (parse [py "1"; py "t"; py "a"; []; py "2"]))
    by (left; reflexivity).
  split; [exact H|].
  destruct (C8_block_text_after_timing _ _ H)
    as (before & after & E & _ & rest & Ea & _).
  exists before, after. split; [exact E | exists rest; exact Ea].
Defined.

(** C8, as written, fails when the line after a timing line is blank, or
    when the input ends there: the block is emitted with no text line. *)
Lemma C8_empty_text_counterexample :
  parse [py "1"; py "00:00:01,000 --> 00:00:03,000"; []]
  = [mkSrtLine (py "1") (py "00:00:01,000 --> 00:00:03,000") []]
  /\ parse [py "1"; py "00:00:01,000 --> 00:00:03,000"]
     = [mkSrtLine (py "1") (py "00:00:01,000 --> 00:00:03,000") []]
  /\ exists b, In b (parse [py "1"; py "00:00:01,000 --> 00:00:03,000"; []])
               /\ text b = [].
Proof.
  split; [reflexivity | split; [reflexivity|]].
  eexists. split; [left; reflexivity | reflexivity].
Qed.

(** ** [SrtWriter]: the text written *)

Section Writer.

Lemma encodable_line (l : str) :
  forallb encodable (l ++ [newline]) = forallb encodable l.
Proof. rewrite forallb_app. simpl. now rewrite andb_true_r. Qed.

Lemma file_write_line (file l : str) :
  file_write file (l ++ [newline])
  = if forallb encodable l then Written (file ++ l ++ [newline])
    else WriteFailed file UnicodeEncodeError.
Proof. unfold file_write. now rewrite encodable_line. Qed.


Lemma write_text_lines (ls : list str) (file : str) :
  Forall (fun l => forallb encodable l = true) ls ->
  fold_left (fun r line => then_write r (line ++ [newline])) ls
    (Written file)
  = Written (file ++ concat (map (fun line => line ++ [newline]) ls)).
Proof.
  intros H. revert file. induction H as [|l ls Hl _ IH]; intros file; simpl.
  - now rewrite app_nil_r.
  - rewrite file_write_line, Hl, IH. now rewrite <- !app_assoc.
Qed.


Lemma write_lines_from_text (subtitles : list SrtLine) (file : str) (i n : Z) :
  n = (i + Z.of_nat (length subtitles))%Z ->
  Forall encodable_block subtitles ->
  write_lines_from file i n subtitles = Written (file ++ srt_text subtitles).
Proof.
  intros Hn H. revert file i Hn.
  induction H as [|b rest (Hs & Ht & Hx) _ IH]; intros file i Hn.
  - simpl. now rewrite app_nil_r.
  - cbn [write_lines_from]. rewrite file_write_line, Hs.
    cbn [then_write]. rewrite file_write_line, Ht.
    rewrite (write_text_lines _ _ Hx).
    cbn [srt_text]. unfold block_text.
    destruct rest as [|b' rest].
    + replace (i =? n - 1)%Z with true
        by (symmetry; apply Z.eqb_eq; simpl in Hn; lia).
      cbn [negb write_lines_from]. now rewrite !app_nil_r, <- !app_assoc.
    + replace (i =? n - 1)%Z with false
        by (symmetry; apply Z.eqb_neq; simpl length in Hn; lia).
      cbn [negb then_write]. unfold file_write at 1. cbn [forallb].
      change (encodable newline && true) with true. cbv iota.
      rewrite IH by (cbn [length] in *; lia).
      now rewrite <- !app_assoc.
Qed.


Lemma serialize_text (subtitles : list SrtLine) :
  Forall encodable_block subtitles ->
  serialize subtitles = Written (srt_text subtitles).
Proof.
  intros H. unfold serialize, write_lines, SrtWriter_open.
  now rewrite write_lines_from_text by (lia || assumption).
Qed.

End Writer.

(** ** [str.splitlines] on the text written *)

Section SplitLines.

Lemma splitlines_from_line (l : str) (cur rest : str) :
  no_linebreak l = true ->
  splitlines_from cur (l ++ newline :: rest)
  = (rev cur ++ l) :: splitlines_from [] rest.
Proof.
  revert cur. induction l as [|c l IH]; intros cur Hl.
  - simpl. rewrite app_nil_r. now destruct rest.
  - simpl in Hl. apply andb_true_iff in Hl as [Hc Hl].
    apply negb_true_iff in Hc.
    simpl. rewrite Hc, IH by assumption. simpl.
    now rewrite <- app_assoc.
Qed.

Lemma splitlines_from_lines (ls : list str) (rest : str) :
  Forall (fun l => no_linebreak l = true) ls ->
  splitlines_from [] (concat (map (fun l => l ++ [newline]) ls) ++ rest)
  = ls ++ splitlines_from [] rest.
Proof.
  induction 1 as [|l ls Hl _ IH]; simpl; [reflexivity|].
  rewrite <- !app_assoc. simpl.
  rewrite splitlines_from_line by assumption. simpl. now rewrite IH.
Qed.

Lemma clean_block_lines (b : SrtLine) :
  clean_block b ->
  Forall (fun l => no_linebreak l = true) (sequence b :: timing b :: text b).
Proof.
  intros (Hs & Ht & Hx). repeat constructor; try assumption.
  eapply Forall_impl; [|exact Hx]. now intros t [H _].
Qed.

Lemma splitlines_block_text (b : SrtLine) (rest : str) :
  clean_block b ->
  splitlines_from [] (block_text b ++ rest)
  = (sequence b :: timing b :: text b) ++ splitlines_from [] rest.
Proof.
  intros Hb.
  rewrite <- (splitlines_from_lines _ rest (clean_block_lines b Hb)).
  unfold block_text. simpl. now rewrite <- !app_assoc.
Qed.

Lemma splitlines_srt_text (subtitles : list SrtLine) :
  Forall clean_block subtitles ->
  splitlines (srt_text subtitles) = srt_lines subtitles.
Proof.
  unfold splitlines.
  induction 1 as [|b rest Hb Hrest IH]; [reflexivity|].
  cbn [srt_text srt_lines].
  rewrite splitlines_block_text by assumption.
  f_equal. destruct rest as [|b' rest]; [reflexivity|].
  change ([newline] ++ srt_text (b' :: rest))
    with ([] ++ newline :: srt_text (b' :: rest)).
  rewrite splitlines_from_line by reflexivity.
  now rewrite IH.
Qed.

End SplitLines.

(** ** [SrtParser] on the lines written *)

Section ParseWritten.

Lemma handle_text_lines (ts more : list str) (p : SrtParser) :
  Forall nonblank ts -> _state p = STATE_TEXT ->
  fold_left _handle_line (ts ++ more) p
  = fold_left _handle_line more
      (mkSrtParser (_seq p) (_timing p) (_text p ++ ts) STATE_TEXT
         (_lines p)).
Proof.
  intros Hts. revert p. induction Hts as [|t ts Ht _ IH]; intros p Hp.
  - simpl. rewrite app_nil_r. destruct p; simpl in *. now subst.
  - simpl. unfold _handle_line at 2. rewrite Hp. unfold _handle_text.
    destruct (str_eqb (strip t) []) eqn:Hb.
    { apply str_eqb_eq in Hb. contradiction. }
    rewrite IH by (simpl; assumption). simpl.
    now rewrite <- app_assoc.
Qed.

Lemma clean_block_text_nonblank (b : SrtLine) :
  clean_block b -> Forall nonblank (text b).
Proof.
  intros (_ & _ & Hx). eapply Forall_impl; [|exact Hx]. now intros t [_ H].
Qed.

(** One block read from the state between two blocks. *)
Lemma handle_block_lines (b : SrtLine) (more : list str) (p : SrtParser) :
  clean_block b -> _state p = STATE_SEQ -> _text p = [] ->
  fold_left _handle_line ((sequence b :: timing b :: text b) ++ more) p
  = fold_left _handle_line more
      (mkSrtParser (sequence b) (timing b) (text b) STATE_TEXT (_lines p)).
Proof.
  intros Hb Hs Ht. simpl.
  unfold _handle_line at 3. rewrite Hs.
  unfold _handle_line at 2. simpl.
  rewrite handle_text_lines;
    [|now apply clean_block_text_nonblank|reflexivity].
  simpl. now rewrite Ht.
Qed.

Lemma parse_lines_app (p : SrtParser) (l1 l2 : list str) :
  parse_lines p (l1 ++ l2) = parse_lines (fold_left _handle_line l1 p) l2.
Proof. unfold parse_lines. now rewrite fold_left_app. Qed.

(** The blank line after a block emits it. *)
Lemma handle_blank_after_block (b : SrtLine) (ls : list SrtLine) :
  fold_left _handle_line [[]]
    (mkSrtParser (sequence b) (timing b) (text b) STATE_TEXT ls)
  = mkSrtParser (sequence b) (timing b) [] STATE_SEQ (ls ++ [b]).
Proof. now destruct b. Qed.

(** The end of input after a block emits it. *)
Lemma parse_lines_flush (b : SrtLine) (ls : list SrtLine) :
  snd (parse_lines
         (mkSrtParser (sequence b) (timing b) (text b) STATE_TEXT ls) [])
  = ls ++ [b].
Proof. now destruct b. Qed.

Lemma parse_srt_lines (subtitles : list SrtLine) (p : SrtParser) :
  Forall clean_block subtitles -> _state p = STATE_SEQ -> _text p = [] ->
  snd (parse_lines p (srt_lines subtitles)) = _lines p ++ subtitles.
Proof.
  intros H. revert p. induction H as [|b rest Hb Hrest IH]; intros p Hs Ht.
  - unfold parse_lines. simpl. rewrite Hs. simpl. now rewrite app_nil_r.
  - cbn [srt_lines]. rewrite parse_lines_app.
    rewrite <- (app_nil_r (sequence b :: timing b :: text b)).
    rewrite (handle_block_lines b [] p Hb Hs Ht). cbn [fold_left].
    destruct rest as [|b' rest].
    + apply parse_lines_flush.
    + change ([] :: srt_lines (b' :: rest))
        with ([[]] ++ srt_lines (b' :: rest)).
      rewrite parse_lines_app, handle_blank_after_block.
      rewrite IH by reflexivity. cbn [_lines].
      now rewrite <- app_assoc.
Qed.

End ParseWritten.

(** C5 (as amended): for every list of blocks whose sequence labels, timing
    labels and text lines hold no line-boundary character and only
    characters that UTF-8 encodes, and whose text lines are not blank, the
    writer writes its text without an exception, and the lines of that
    text, read by a new parser, give the same list of blocks back; the last
    block, written without a blank line after it, is emitted by the flush
    at the end of input. *)
Theorem C5_round_trip_single_lines (subtitles : list SrtLine) :
  Forall clean_block subtitles ->
  Forall encodable_block subtitles ->
  exists written,
    serialize subtitles = Written written
    /\ parse (splitlines written) = subtitles.
Proof.
  intros H He. exists (srt_text subtitles).
  split; [now apply serialize_text|].
  unfold parse. rewrite splitlines_srt_text by assumption.
  now rewrite parse_srt_lines.
Qed.

Lemma C5_round_trip_single_lines_witness :
  let subtitles :=
    [mkSrtLine (py "1") (py "00:00:01,000 --> 00:00:03,000") [py "ab"];
     mkSrtLine (py "2") (py "00:00:04,000 --> 00:00:05,000")
       [py "c"; py "d"]] in
  Forall clean_block subtitles
  /\ Forall encodable_block subtitles
  /\ exists written,
       serialize subtitles = Written written
       /\ parse (splitlines written) = subtitles.
Proof.
  cbv zeta.
  assert (H : Forall clean_block
    [mkSrtLine (py "1") (py "00:00:01,000 --> 00:00:03,000") [py "ab"];
     mkSrtLine (py "2") (py "00:00:04,000 --> 00:00:05,000")
       [py "c"; py "d"]]).
  { repeat constructor; simpl; discriminate. }
  assert (He : Forall encodable_block
    [mkSrtLine (py "1") (py "00:00:01,000 --> 00:00:03,000") [py "ab"];
     mkSrtLine (py "2") (py "00:00:04,000 --> 00:00:05,000")
       [py "c"; py "d"]]).
  { repeat constructor. }
  split; [exact H | split; [exact He|]].
  exact (C5_round_trip_single_lines _ H He).
Defined.

(** C5, as written, fails for a text line that is neither empty nor blank
    but holds a newline: it is written as one line and read back as two.
    It also fails for a text line that holds a lone surrogate: the write
    raises [UnicodeEncodeError] after the two labels are written. *)
Lemma C5_line_break_counterexample :
  let subtitles :=
    [mkSrtLine (py "1") (py "00:00:01,000 --> 00:00:03,000")
       [py "a" ++ [newline] ++ py "b"]] in
  let surrogate := [mkSrtLine (py "1") (py "t") [[55296]]] in
  Forall (fun b => Forall (fun t => t <> [] /\ strip t <> []) (text b))
    subtitles
  /\ (exists written,
        serialize subtitles = Written written
        /\ parse (splitlines written)
           = [mkSrtLine (py "1") (py "00:00:01,000 --> 00:00:03,000")
                [py "a"; py "b"]]
        /\ parse (splitlines written) <> subtitles)
  /\ Forall (fun b => Forall (fun t => t <> [] /\ strip t <> []) (text b))
       surrogate
  /\ serialize surrogate
     = WriteFailed (py "1" ++ [newline] ++ py "t" ++ [newline])
         UnicodeEncodeError.
Proof.
  cbv zeta. split; [|split; [|split]].
  - repeat constructor; vm_compute; discriminate.
  - eexists. split; [reflexivity|]. split; [reflexivity|].
    vm_compute. discriminate.
  - repeat constructor; vm_compute; discriminate.
  - reflexivity.
Qed.

(** ** [get_file_lines] *)

Section GetFileLines.

Variable file : bytes.

Lemma get_file_lines_Returned (ls : list str) :
  get_file_lines file = Returned ls
  <-> (exists c, read_text utf_8_decode file = Some c
                 /\ contains yod c = true /\ ls = splitlines c)
      \/ (utf_8_without_yod file
          /\ exists c, read_text cp1255_decode file = Some c
                       /\ contains yod c = true /\ ls = splitlines c).
Proof.
  unfold get_file_lines, utf_8_without_yod.
  destruct (read_text utf_8_decode file) as [u|];
    [destruct (contains yod u) eqn:Hu|];
    destruct (read_text cp1255_decode file) as [w|];
    try destruct (contains yod w) eqn:Hw;
    split;
    try (intros [= <-]);
    try discriminate;
    try (left; eexists; repeat split; eassumption || reflexivity);
    try (right; split;
         [intros c [= <-]; assumption || discriminate
         | eexists; repeat split; eassumption || reflexivity]);
    try (right; split;
         [intros c; discriminate
         | eexists; repeat split; eassumption || reflexivity]);
    intros [(c & E & Hc & ->) | (Hno & c & E & Hc & ->)];
    try discriminate;
    try (injection E as <-);
    try congruence;
    try (specialize (Hno _ eq_refl); congruence).
Qed.

Lemma get_file_lines_DecodeError :
  get_file_lines file = Raised DecodeError
  <-> utf_8_without_yod file
      /\ exists c, read_text cp1255_decode file = Some c
                   /\ contains yod c = false.
Proof.
  unfold get_file_lines, utf_8_without_yod.
  destruct (read_text utf_8_decode file) as [u|];
    [destruct (contains yod u) eqn:Hu|];
    destruct (read_text cp1255_decode file) as [w|];
    try destruct (contains yod w) eqn:Hw;
    split;
    try discriminate;
    try (intros _; split;
         [intros c; try discriminate; intros [= <-]; assumption
         | eexists; split; [reflexivity | assumption]]);
    try reflexivity;
    intros (Hno & c & E & Hc);
    try discriminate;
    try (specialize (Hno _ eq_refl); congruence);
    try (injection E as <-; congruence).
Qed.

Lemma get_file_lines_UnicodeDecodeError :
  get_file_lines file = Raised UnicodeDecodeError
  <-> utf_8_without_yod file /\ read_text cp1255_decode file = None.
Proof.
  unfold get_file_lines, utf_8_without_yod.
  destruct (read_text utf_8_decode file) as [u|];
    [destruct (contains yod u) eqn:Hu|];
    destruct (read_text cp1255_decode file) as [w|];
    try destruct (contains yod w) eqn:Hw;
    split;
    try discriminate;
    try (intros _; split;
         [intros c; try discriminate; intros [= <-]; assumption
         | reflexivity]);
    try reflexivity;
    intros (Hno & E);
    try discriminate;
    try (specialize (Hno _ eq_refl); congruence).
Qed.

End GetFileLines.

(** C7: the file is read as UTF-8 first and as code page 1255 when that
    fails, and the lines of the first reading that holds a yod are returned
    (lemma [get_file_lines_Returned]); [DecodeError] is raised when the code
    page 1255 reading succeeds and no reading holds a yod (lemma
    [get_file_lines_DecodeError]).  A file that holds the one byte 0x81 is
    not UTF-8, and code page 1255 leaves that byte undefined: neither
    reading gives content with a yod, yet what is raised is the codec's
    [UnicodeDecodeError] of the second reading, which nothing catches, and
    not [DecodeError]. *)
Theorem C7_undecodable_file :
  let file := [Byte.x81] in
  read_text utf_8_decode file = None
  /\ read_text cp1255_decode file = None
  /\ get_file_lines file = Raised UnicodeDecodeError
  /\ get_file_lines file <> Raised DecodeError.
Proof. cbv zeta. repeat split. vm_compute. discriminate. Qed.

(** * Further properties of the module *)

(** ** [fix_line]: what every line keeps *)

Section FixLineShape.

Lemma star_then_dollar_prefix (t g : str) :
  star_then_dollar t = Some g -> exists u, t = g ++ u.
Proof.
  revert g. induction t as [|c t IH]; intros g; cbn [star_then_dollar].
  - intros [= <-]. now exists [].
  - destruct (is_special c).
    + destruct (star_then_dollar t) as [g'|].
      * intros [= <-]. destruct (IH g' eq_refl) as (u & ->).
        now exists u.
      * destruct (at_dollar (c :: t)); [|discriminate].
        intros [= <-]. now exists (c :: t).
    + destruct (at_dollar (c :: t)); [|discriminate].
      intros [= <-]. now exists (c :: t).
Qed.

Lemma star_then_dollar_special (t g : str) :
  star_then_dollar t = Some g -> forallb is_special g = true.
Proof.
  revert g. induction t as [|c t IH]; intros g; cbn [star_then_dollar].
  - now intros [= <-].
  - destruct (is_special c) eqn:Hc.
    + destruct (star_then_dollar t) as [g'|].
      * intros [= <-]. cbn [forallb]. rewrite Hc. now apply IH.
      * destruct (at_dollar (c :: t)); [|discriminate]. now intros [= <-].
    + destruct (at_dollar (c :: t)); [|discriminate]. now intros [= <-].
Qed.

(** Where the suffix search matches: at a character [c] that is not
    special, with the suffix at the head of what follows it. *)
Lemma suffix_search_anchor (line g : str) :
  suffix_search line = Some g ->
  exists q c u,
    line = q ++ c :: g ++ u /\ is_special c = false
    /\ forallb is_special g = true.
Proof.
  induction line as [|x line IH]; [discriminate|].
  cbn [suffix_search].
  destruct (is_special x) eqn:Hx; cbn [negb].
  - intros H. destruct (IH H) as (q & c & u & E & Hc & Hg).
    exists (x :: q), c, u. rewrite E. auto.
  - destruct (star_then_dollar line) as [g'|] eqn:Hs.
    + intros E. injection E as <-.
      destruct (star_then_dollar_prefix _ _ Hs) as (u & E).
      exists [], x, u. rewrite E. repeat split; auto.
      eapply star_then_dollar_special; eassumption.
    + intros H. destruct (IH H) as (q & c & u & E & Hc & Hg).
      exists (x :: q), c, u. rewrite E. auto.
Qed.

Lemma special_run_length_before (q : str) (c : char) (t : str) :
  is_special c = false ->
  (length (special_run (q ++ c :: t)) <= length q)%nat.
Proof.
  intros Hc. induction q as [|x q IH]; simpl.
  - now rewrite Hc.
  - destruct (is_special x); simpl; lia.
Qed.

Lemma special_run_length (line : str) :
  (length (special_run line) <= length line)%nat.
Proof.
  induction line as [|x line IH]; simpl; [lia|].
  destruct (is_special x); simpl; lia.
Qed.

Lemma py_slice_length (s : str) (a b : nat) :
  (a <= b <= length s)%nat ->
  length (py_slice s (Z.of_nat a) (Z.of_nat b)) = (b - a)%nat.
Proof.
  intros H. rewrite py_slice_inside by assumption.
  rewrite length_firstn, length_skipn. lia.
Qed.

(** Prefix and suffix found never overlap, whatever the line. *)
Lemma runs_fit (line : str) :
  (length (special_run line)
   + length (match suffix_search line with Some g => g | None => [] end)
   <= length line)%nat.
Proof.
  destruct (suffix_search line) as [g|] eqn:Hs.
  - destruct (suffix_search_anchor _ _ Hs) as (q & c & u & -> & Hc & _).
    pose proof (special_run_length_before q c (g ++ u) Hc).
    rewrite !length_app. simpl. rewrite length_app. lia.
  - pose proof (special_run_length line). simpl. lia.
Qed.

End FixLineShape.

(** X1: the result of [fix_line] has the length of its argument, for every
    line, also one that ends with a newline. *)
Theorem X1_fix_line_keeps_length (line : str) :
  length (fix_line line) = length line.
Proof.
  unfold fix_line, prefix_search.
  set (g := match suffix_search line with Some g => g | None => [] end).
  set (pre := special_run line).
  assert (Hfit : (length pre + length g <= length line)%nat)
    by exact (runs_fit line).
  rewrite len_dash_fix, !length_app, dash_fix_length.
  unfold len.
  replace (Z.of_nat (length line) - Z.of_nat (length g))%Z
    with (Z.of_nat (length line - length g)) by lia.
  rewrite py_slice_length by lia. lia.
Qed.

(** X2: on a line that does not end with a newline, [fix_line] only
    rearranges: the result is a permutation of the line. *)
Theorem X2_fix_line_permutes (line : str) :
  endswith line [newline] = false -> Permutation (fix_line line) line.
Proof. intros H. apply (fix_line_perm line H). Qed.

Lemma X2_fix_line_permutes_witness :
  endswith (py "- Wait -") [newline] = false
  /\ Permutation (fix_line (py "- Wait -")) (py "- Wait -").
Proof.
  split; [reflexivity | apply X2_fix_line_permutes; reflexivity].
Defined.

(** ** [fix_line]: the two runs change places *)

Section FixLineSwap.

Lemma at_dollar_not_newline (c : char) (s : str) :
  c <> newline -> at_dollar (c :: s) = false.
Proof.
  intros Hc. destruct s; [|reflexivity]. simpl. now apply N.eqb_neq.
Qed.

Lemma special_run_nil_inv (l : str) :
  special_run l = [] ->
  l = [] \/ exists x t, l = x :: t /\ is_special x = false.
Proof.
  destruct l as [|x t]; [now left|]. simpl.
  destruct (is_special x) eqn:Hx; [discriminate|].
  intros _. right. now exists x, t.
Qed.

(** The line seen as leading run, core and trailing run. *)
Lemma fix_line_swap (pre m : str) (c : char) (s : str) :
  forallb is_special pre = true -> forallb is_special s = true ->
  is_special c = false -> at_dollar (c :: s) = false ->
  special_run (m ++ [c]) = [] ->
  special_run (pre ++ (m ++ [c]) ++ s) = pre
  /\ suffix_search (pre ++ (m ++ [c]) ++ s) = Some s
  /\ fix_line (pre ++ (m ++ [c]) ++ s) = dash_fix s ++ (m ++ [c]) ++ pre.
Proof.
  intros Hpre Hs Hc Hd Hm.
  assert (Hrun : special_run (pre ++ (m ++ [c]) ++ s) = pre).
  { destruct (special_run_nil_inv _ Hm) as [E | (x & t & E & Hx)].
    - now destruct m.
    - rewrite E. simpl. now apply special_run_stop. }
  assert (Hline : pre ++ (m ++ [c]) ++ s = (pre ++ m) ++ c :: s)
    by (now rewrite <- !app_assoc).
  destruct (fix_line_split (pre ++ m) c s Hc Hs Hd)
    as (core & E & Hsearch & F & _).
  rewrite <- Hline in E, Hsearch, F. rewrite Hrun in E, F.
  apply app_inv_head, app_inv_tail in E. subst core.
  auto.
Qed.

(** Every line that is not made of special characters only has this
    shape. *)
Lemma line_runs (line : str) :
  forallb is_special line = false ->
  exists pre m c s,
    line = pre ++ (m ++ [c]) ++ s
    /\ forallb is_special pre = true /\ forallb is_special s = true
    /\ is_special c = false /\ special_run (m ++ [c]) = [].
Proof.
  intros Hall.
  destruct (special_run_split line) as (rest & E & Hpre & Hrest).
  set (pre := special_run line) in *.
  assert (Hr : forallb is_special rest = false).
  { rewrite E, forallb_app, Hpre in Hall. exact Hall. }
  destruct (last_non_special rest Hr) as (p & c & s & -> & Hc & Hs).
  exists pre, p, c, s. repeat split; auto.
  - rewrite E at 1. now rewrite <- !app_assoc.
  - destruct p as [|x p]; simpl in *.
    + now rewrite Hc.
    + now rewrite Hrest.
Qed.

Lemma filter_all_special (s : str) :
  forallb is_special s = true -> filter non_special s = [].
Proof.
  induction s as [|x s IH]; simpl; [reflexivity|].
  rewrite andb_true_iff. intros [Hx Hs]. unfold non_special at 1.
  rewrite Hx. simpl. auto.
Qed.

Lemma dash_fix_all_special (s : str) :
  forallb is_special s = true -> forallb is_special (dash_fix s) = true.
Proof.
  rewrite !forallb_forall. intros H x Hx. apply H.
  eapply Permutation_in; [apply dash_fix_perm | exact Hx].
Qed.

Lemma dash_fix_miss (s : str) :
  endswith s (py " -") = false -> dash_fix s = s.
Proof. unfold dash_fix. now intros ->. Qed.

End FixLineSwap.

(** X3: on a line that does not end with a newline, [fix_line] leaves the
    characters that are not special as they are and in their order: only
    special characters move. *)
Theorem X3_fix_line_keeps_text (line : str) :
  endswith line [newline] = false ->
  filter non_special (fix_line line) = filter non_special line.
Proof.
  intros He. destruct (forallb is_special line) eqn:Hall.
  - now destruct (fix_line_all_special line Hall) as [-> _].
  - destruct (line_runs line Hall) as (pre & m & c & s & E & Hp & Hs & Hc & Hm).
    assert (Hd : at_dollar (c :: s) = false).
    { apply (at_dollar_of_endswith (pre ++ m) c s Hs).
      rewrite E in He.
      replace (pre ++ (m ++ [c]) ++ s) with ((pre ++ m) ++ c :: s) in He
        by (now rewrite <- !app_assoc).
      exact He. }
    destruct (fix_line_swap pre m c s Hp Hs Hc Hd Hm) as (_ & _ & F).
    rewrite E, F, !filter_app.
    rewrite (filter_all_special _ (dash_fix_all_special _ Hs)).
    rewrite (filter_all_special _ Hs), (filter_all_special _ Hp).
    now rewrite app_nil_r.
Qed.

Lemma X3_fix_line_keeps_text_witness :
  endswith (py "- Wait -") [newline] = false
  /\ filter non_special (fix_line (py "- Wait -")) = py "Wait".
Proof.
  split; [reflexivity|].
  rewrite X3_fix_line_keeps_text; reflexivity.
Defined.

(** X4: a line that starts with a run [pre] of special characters, ends
    with a run [s] of special characters, and whose core between them
    starts with a character that is not special and ends with one that is
    neither special nor a newline, comes out as the rewritten [s], the core
    and [pre]. *)
Theorem X4_fix_line_swaps_runs (pre m : str) (c : char) (s : str) :
  forallb is_special pre = true -> forallb is_special s = true ->
  is_special c = false -> c <> newline ->
  special_run (m ++ [c]) = [] ->
  fix_line (pre ++ (m ++ [c]) ++ s) = dash_fix s ++ (m ++ [c]) ++ pre.
Proof.
  intros Hp Hs Hc Hn Hm.
  apply (fix_line_swap pre m c s Hp Hs Hc (at_dollar_not_newline c s Hn) Hm).
Qed.

Lemma X4_fix_line_swaps_runs_witness :
  forallb is_special (py "(") = true /\ forallb is_special (py ")?") = true
  /\ is_special 98 = false /\ 98 <> newline
  /\ special_run (py "a" ++ [98]) = []
  /\ fix_line (py "(ab)?") = py ")?ab(".
Proof.
  split; [reflexivity|]. split; [reflexivity|]. split; [reflexivity|].
  split; [discriminate|]. split; [reflexivity|].
  apply (X4_fix_line_swaps_runs (py "(") (py "a") 98 (py ")?"));
    try reflexivity; discriminate.
Defined.

(** X5: [fix_line] applied twice gives the line back, for a line without a
    newline, when neither the prefix nor the suffix found ends with space,
    dash (the dash rewrite applies to neither). *)
Theorem X5_fix_line_twice (line : str) :
  ~ In newline line ->
  endswith (special_run line) (py " -") = false ->
  (forall g, suffix_search line = Some g -> endswith g (py " -") = false) ->
  fix_line (fix_line line) = line.
Proof.
  intros Hnl Hpre Hsuf. destruct (forallb is_special line) eqn:Hall.
  - destruct (fix_line_all_special line Hall) as [E _]. now rewrite !E.
  - destruct (line_runs line Hall) as (pre & m & c & s & E & Hp & Hs & Hc & Hm).
    assert (Hn : c <> newline).
    { intros ->. apply Hnl. rewrite E.
      apply in_or_app; right. apply in_or_app; left.
      apply in_or_app; right. now left. }
    destruct (fix_line_swap pre m c s Hp Hs Hc
                (at_dollar_not_newline c s Hn) Hm) as (Hrun & Hsearch & F).
    rewrite <- E in Hrun, Hsearch, F.
    rewrite Hrun in Hpre. specialize (Hsuf s Hsearch).
    rewrite F, (dash_fix_miss s Hsuf).
    destruct (fix_line_swap s m c pre Hs Hp Hc
                (at_dollar_not_newline c pre Hn) Hm) as (_ & _ & F').
    rewrite F', (dash_fix_miss pre Hpre). now rewrite E.
Qed.

Lemma X5_fix_line_twice_witness :
  ~ In newline (py "(ab)?")
  /\ endswith (special_run (py "(ab)?")) (py " -") = false
  /\ fix_line (fix_line (py "(ab)?")) = py "(ab)?".
Proof.
  assert (H1 : ~ In newline (py "(ab)?"))
    by (vm_compute; intuition discriminate).
  assert (H2 : endswith (special_run (py "(ab)?")) (py " -") = false)
    by reflexivity.
  split; [exact H1 | split; [exact H2|]].
  apply (X5_fix_line_twice (py "(ab)?") H1 H2).
  intros g Hg. vm_compute in Hg. injection Hg as <-. reflexivity.
Defined.

(** ** [SrtParser]: where the blocks come from *)

Section ParserContent.

Variable P : str -> Prop.

Lemma handle_text_holds (p : SrtParser) (line : str) :
  _state p = STATE_TEXT -> P line \/ strip line = [] ->
  parser_holds P p -> parser_holds P (_handle_text p line).
Proof.
  intros Hst Hline (Ht & Hl & Hs & Hm). unfold _handle_text.
  destruct (str_eqb (strip line) []) eqn:Hb.
  - repeat split; simpl; try congruence; auto.
    apply Forall_app. split; [assumption|]. constructor; [|constructor].
    repeat split; simpl; auto. apply Hs. congruence.
  - assert (Hp : P line).
    { destruct Hline as [H|H]; [exact H|].
      apply str_eqb_eq in H. congruence. }
    repeat split; simpl; auto.
    apply Forall_app. split; [assumption|]. now constructor.
Qed.

Lemma handle_line_holds (p : SrtParser) (line : str) :
  P line -> parser_holds P p -> parser_holds P (_handle_line p line).
Proof.
  intros Hline H. unfold _handle_line.
  destruct (_state p) eqn:Hst.
  - destruct H as (Ht & Hl & Hs & Hm).
    repeat split; simpl; auto; congruence.
  - destruct H as (Ht & Hl & Hs & Hm).
    repeat split; simpl; auto. intros _. apply Hs. congruence.
  - apply handle_text_holds; auto.
Qed.

Lemma handle_lines_hold (ls : list str) (p : SrtParser) :
  Forall P ls -> parser_holds P p ->
  parser_holds P (fold_left _handle_line ls p).
Proof.
  intros H. revert p. induction H as [|l ls Hl _ IH]; intros p Hp; simpl.
  - exact Hp.
  - apply IH, handle_line_holds; assumption.
Qed.

Lemma parse_lines_hold (ls : list str) (p : SrtParser) :
  Forall P ls -> parser_holds P p ->
  Forall (block_holds P) (snd (parse_lines p ls)).
Proof.
  intros Hls Hp. unfold parse_lines. simpl.
  pose proof (handle_lines_hold ls p Hls Hp) as H.
  destruct (_state (fold_left _handle_line ls p)) eqn:Hst;
    try apply H.
  apply handle_text_holds; auto.
Qed.

Lemma parser_init_holds : parser_holds P SrtParser_init.
Proof. repeat split; simpl; try constructor; congruence. Qed.

End ParserContent.

(** X6: the parser makes up nothing: in every block it returns, the
    sequence label, the timing label and every text line are lines of the
    input. *)
Theorem X6_parser_blocks_from_input (input : list str) (b : SrtLine) :
  In b (parse input) ->
  In (sequence b) input /\ In (timing b) input
  /\ forall t, In t (text b) -> In t input.
Proof.
  intros Hb.
  assert (H : Forall (block_holds (fun l => In l input)) (parse input)).
  { apply parse_lines_hold; [|apply parser_init_holds].
    apply Forall_forall. auto. }
  rewrite Forall_forall in H. destruct (H b Hb) as (Hs & Ht & Hx).
  rewrite Forall_forall in Hx. auto.
Qed.

Lemma X6_parser_blocks_from_input_witness :
  In (mkSrtLine (py "1") (py "t") [py "a"]) (parse [py "1"; py "t"; py "a"])
  /\ In (py "1") [py "1"; py "t"; py "a"].
Proof.
  assert (H : In (mkSrtLine (py "1") (py "t") [py "a"])
                 (parse [py "1"; py "t"; py "a"])) by (left; reflexivity).
  split; [exact H|].
  exact (proj1 (X6_parser_blocks_from_input _ _ H)).
Defined.

(** ** [SrtParser]: one block after the other *)

Section ParserFuture.

Lemma handle_line_same_future (ls : list SrtLine) (p q : SrtParser)
      (line : str) :
  same_future ls p q ->
  same_future ls (_handle_line p line) (_handle_line q line).
Proof.
  intros (Hst & Ht & Hl & Hs & Hm). unfold _handle_line.
  rewrite <- Hst. destruct (_state p) eqn:Hp.
  - repeat split; simpl; auto; congruence.
  - repeat split; simpl; auto. intros _. apply Hs. congruence.
  - unfold _handle_text.
    rewrite <- Hst, <- Ht, <- (Hs ltac:(congruence)), <- (Hm eq_refl).
    destruct (str_eqb (strip line) []).
    + repeat split; simpl; try congruence.
      rewrite Hl. now rewrite <- app_assoc.
    + repeat split; simpl; auto; congruence.
Qed.

Lemma handle_lines_same_future (ls : list SrtLine) (input : list str)
      (p q : SrtParser) :
  same_future ls p q ->
  same_future ls (fold_left _handle_line input p)
    (fold_left _handle_line input q).
Proof.
  revert p q. induction input as [|l input IH]; intros p q H; simpl.
  - exact H.
  - apply IH, handle_line_same_future, H.
Qed.

Lemma parse_lines_same_future (ls : list SrtLine) (input : list str)
      (p q : SrtParser) :
  same_future ls p q ->
  snd (parse_lines p input) = ls ++ snd (parse_lines q input).
Proof.
  intros H. unfold parse_lines. simpl.
  pose proof (handle_lines_same_future ls input p q H) as H'.
  set (p' := fold_left _handle_line input p) in *.
  set (q' := fold_left _handle_line input q) in *.
  destruct H' as (Hst & Ht & Hl & Hs & Hm).
  rewrite <- Hst. destruct (_state p') eqn:Hp; try exact Hl.
  unfold _handle_text.
  rewrite <- Ht, <- (Hs ltac:(congruence)), <- (Hm eq_refl).
  change (str_eqb (strip []) []) with true. simpl.
  rewrite Hl. now rewrite <- app_assoc.
Qed.

End ParserFuture.

(** X7: parsing goes block by block: a sequence line, a timing line, text
    lines none of which is blank, and a blank line give one block, followed
    by what the rest of the input gives on its own. *)
Theorem X7_parse_block_then_rest (s t : str) (texts rest : list str) :
  Forall nonblank texts ->
  parse (s :: t :: texts ++ [] :: rest)
  = mkSrtLine s t texts :: parse rest.
Proof.
  intros Htexts. unfold parse.
  change (s :: t :: texts ++ [] :: rest)
    with ([s; t] ++ texts ++ [[]] ++ rest).
  rewrite parse_lines_app. cbn [fold_left].
  unfold _handle_line at 2. cbn [_state SrtParser_init].
  unfold _handle_line at 1. cbn [_state _handle_seq].
  unfold parse_lines at 1.
  rewrite handle_text_lines by (assumption || reflexivity).
  rewrite fold_left_app.
  change (snd (parse_lines
                 (fold_left _handle_line [[]]
                    (mkSrtParser s t ([] ++ texts) STATE_TEXT [])) rest)
          = mkSrtLine s t texts :: snd (parse_lines SrtParser_init rest)).
  change ([] ++ texts) with texts.
  change (fold_left _handle_line [[]] (mkSrtParser s t texts STATE_TEXT []))
    with (mkSrtParser s t [] STATE_SEQ [mkSrtLine s t texts]).
  apply (parse_lines_same_future [mkSrtLine s t texts]).
  repeat split; simpl; congruence.
Qed.

Lemma X7_parse_block_then_rest_witness :
  Forall nonblank [py "a"; py "b"]
  /\ parse [py "1"; py "t"; py "a"; py "b"; []; py "2"; py "u"; py "c"]
     = [mkSrtLine (py "1") (py "t") [py "a"; py "b"];
        mkSrtLine (py "2") (py "u") [py "c"]].
Proof.
  assert (H : Forall nonblank [py "a"; py "b"])
    by (repeat constructor; discriminate).
  split; [exact H|].
  exact (X7_parse_block_then_rest (py "1") (py "t") [py "a"; py "b"]
           [py "2"; py "u"; py "c"] H).
Defined.

(** ** [SrtParser]: blocks emitted stay, and each one uses two lines *)

Section ParserGrowth.

Lemma handle_line_grows (p : SrtParser) (line : str) :
  exists more, _lines (_handle_line p line) = _lines p ++ more
    /\ (2 * length more + pending (_handle_line p line)
        <= pending p + 1)%nat.
Proof.
  unfold _handle_line, pending. destruct (_state p) eqn:Hst.
  - exists []. simpl. rewrite app_nil_r. split; [reflexivity | lia].
  - exists []. simpl. rewrite app_nil_r. split; [reflexivity | lia].
  - unfold _handle_text. destruct (str_eqb (strip line) []).
    + eexists. simpl. split; [reflexivity | simpl; lia].
    + exists []. simpl. rewrite app_nil_r, Hst. split; [reflexivity | lia].
Qed.

Lemma handle_lines_grow (input : list str) (p : SrtParser) :
  exists more,
    _lines (fold_left _handle_line input p) = _lines p ++ more
    /\ (2 * length more + pending (fold_left _handle_line input p)
        <= pending p + length input)%nat.
Proof.
  revert p. induction input as [|l input IH]; intros p; simpl.
  - exists []. rewrite app_nil_r. split; [reflexivity | simpl; lia].
  - destruct (handle_line_grows p l) as (m1 & E1 & B1).
    destruct (IH (_handle_line p l)) as (m2 & E2 & B2).
    exists (m1 ++ m2). rewrite E2, E1, <- app_assoc.
    split; [reflexivity|]. rewrite length_app. lia.
Qed.

Lemma parse_lines_grow (input : list str) (p : SrtParser) :
  exists more,
    snd (parse_lines p input) = _lines p ++ more
    /\ (2 * length more <= pending p + length input)%nat.
Proof.
  unfold parse_lines. simpl.
  destruct (handle_lines_grow input p) as (m & E & B).
  set (p' := fold_left _handle_line input p) in *.
  unfold pending in B at 1.
  destruct (_state p') eqn:Hst.
  - exists m. split; [exact E | lia].
  - exists m. split; [exact E | lia].
  - unfold _handle_text. change (str_eqb (strip []) []) with true.
    simpl. eexists. rewrite E, <- app_assoc. split; [reflexivity|].
    rewrite length_app. simpl. lia.
Qed.

Lemma parse_lines_state (input : list str) (p : SrtParser) :
  _state (fst (parse_lines p input)) <> STATE_TEXT.
Proof.
  unfold parse_lines. simpl.
  destruct (_state (fold_left _handle_line input p)) eqn:Hst;
    try congruence.
  unfold _handle_text. change (str_eqb (strip []) []) with true.
  simpl. congruence.
Qed.

End ParserGrowth.

(** X8: a parser keeps the blocks it has emitted.  After [parse_lines] it
    is never left inside the text of a block, its property [lines] gives
    the list just returned, and a second [parse_lines] on the same parser
    returns that list again, followed by the blocks of the second input. *)
Theorem X8_parser_used_again (p : SrtParser) (first second : list str) :
  _state (fst (parse_lines p first)) <> STATE_TEXT
  /\ lines (fst (parse_lines p first)) = snd (parse_lines p first)
  /\ exists more,
       snd (parse_lines (fst (parse_lines p first)) second)
       = snd (parse_lines p first) ++ more.
Proof.
  split; [apply parse_lines_state | split; [reflexivity|]].
  destruct (parse_lines_grow second (fst (parse_lines p first)))
    as (more & E & _).
  exists more. exact E.
Qed.

(** X9: each block returned stands for at least two lines of the input, its
    sequence line and its timing line; so an input of fewer than two lines
    gives no block at all. *)
Theorem X9_parser_two_lines_per_block (input : list str) :
  (2 * length (parse input) <= length input)%nat
  /\ ((length input < 2)%nat -> parse input = []).
Proof.
  destruct (parse_lines_grow input SrtParser_init) as (more & E & B).
  unfold parse. rewrite E. simpl in *.
  split; [exact B|].
  intros H. destruct more; [reflexivity | simpl in B; lia].
Qed.

Lemma X9_parser_two_lines_per_block_witness :
  (length [py "1"] < 2)%nat /\ parse [py "1"] = [].
Proof.
  assert (H : (length [py "1"] < 2)%nat) by (simpl; lia).
  split; [exact H|].
  exact (proj2 (X9_parser_two_lines_per_block [py "1"]) H).
Defined.

(** ** [SrtWriter]: what a call writes *)

Section WriterShape.

Lemma srt_text_app (a b : list SrtLine) :
  a <> [] -> b <> [] ->
  srt_text (a ++ b) = srt_text a ++ [newline] ++ srt_text b.
Proof.
  intros Ha Hb. induction a as [|x a IH]; [congruence|].
  destruct a as [|y a].
  - destruct b as [|z b]; [congruence|].
    cbn [app srt_text]. rewrite app_nil_r. reflexivity.
  - specialize (IH ltac:(congruence)).
    change (srt_text ((x :: y :: a) ++ b))
      with (block_text x ++ [newline] ++ srt_text ((y :: a) ++ b)).
    change (srt_text (x :: y :: a))
      with (block_text x ++ [newline] ++ srt_text (y :: a)).
    rewrite IH. now rewrite <- !app_assoc.
Qed.

Lemma write_lines_appends (file : str) (subtitles : list SrtLine) :
  Forall encodable_block subtitles ->
  write_lines file subtitles = Written (file ++ srt_text subtitles).
Proof.
  intros H. unfold write_lines.
  now rewrite write_lines_from_text by (lia || assumption).
Qed.



(** A write, raising or not, leaves what was written before it. *)
Lemma then_write_extends (r : write_result) (s : str) :
  exists more, file_of (then_write r s) = file_of r ++ more.
Proof.
  destruct r as [f|f e]; simpl.
  - unfold file_write. destruct (forallb encodable s); simpl.
    + now exists s.
    + exists []. now rewrite app_nil_r.
  - exists []. now rewrite app_nil_r.
Qed.

Lemma write_text_lines_extend (ls : list str) (r : write_result) :
  exists more,
    file_of (fold_left (fun r line => then_write r (line ++ [newline])) ls r)
    = file_of r ++ more.
Proof.
  revert r. induction ls as [|l ls IH]; intros r; simpl.
  - exists []. now rewrite app_nil_r.
  - destruct (IH (then_write r (l ++ [newline]))) as (m2 & E2).
    destruct (then_write_extends r (l ++ [newline])) as (m1 & E1).
    exists (m1 ++ m2). now rewrite E2, E1, <- app_assoc.
Qed.

Lemma write_lines_from_extends (subtitles : list SrtLine) (file : str)
      (i n : Z) :
  exists more, file_of (write_lines_from file i n subtitles) = file ++ more.
Proof.
  revert file i. induction subtitles as [|b rest IH]; intros file i.
  - exists []. simpl. now rewrite app_nil_r.
  - cbn [write_lines_from].
    set (r1 := file_write file (sequence b ++ [newline])).
    set (r2 := then_write r1 (timing b ++ [newline])).
    set (r3 := fold_left (fun r line => then_write r (line ++ [newline]))
                 (text b) r2).
    set (r4 := if negb (i =? n - 1)%Z then then_write r3 [newline] else r3).
    assert (E4 : exists more, file_of r4 = file ++ more).
    { destruct (then_write_extends (Written file) (sequence b ++ [newline]))
        as (m1 & E1). change (file_of r1 = file ++ m1) in E1.
      destruct (then_write_extends r1 (timing b ++ [newline])) as (m2 & E2).
      fold r2 in E2.
      destruct (write_text_lines_extend (text b) r2) as (m3 & E3).
      fold r3 in E3.
      unfold r4. destruct (negb (i =? n - 1)%Z).
      - destruct (then_write_extends r3 [newline]) as (m4 & E4).
        exists (m1 ++ m2 ++ m3 ++ m4).
        now rewrite E4, E3, E2, E1, <- !app_assoc.
      - exists (m1 ++ m2 ++ m3). now rewrite E3, E2, E1, <- !app_assoc. }
    destruct E4 as (m & E). destruct r4 as [f|f e]; simpl in E.
    + destruct (IH f (i + 1)%Z) as (m' & E'). exists (m ++ m').
      now rewrite E', E, <- app_assoc.
    + exists m. exact E.
Qed.

End WriterShape.

(** X10: [write_lines] adds to the text already written and changes none
    of it, also when it raises.  Called twice on lists that can be
    encoded, it does not put the separating empty line between the two
    lists that one call on the joined list puts there. *)
Theorem X10_write_lines_in_two_calls (file : str) (a b : list SrtLine) :
  (exists more, file_of (write_lines file a) = file ++ more)
  /\ (a <> [] -> b <> [] ->
      Forall encodable_block a -> Forall encodable_block b ->
      exists ta tb,
        serialize a = Written ta /\ serialize b = Written tb
        /\ write_lines file a = Written (file ++ ta)
        /\ write_lines (file ++ ta) b = Written (file ++ ta ++ tb)
        /\ write_lines file (a ++ b)
           = Written (file ++ ta ++ [newline] ++ tb)).
Proof.
  split; [apply write_lines_from_extends|].
  intros Ha Hb Ea Eb. exists (srt_text a), (srt_text b).
  rewrite !serialize_text by assumption.
  rewrite !write_lines_appends
    by (assumption || (apply Forall_app; split; assumption)).
  rewrite srt_text_app by assumption.
  repeat split; now rewrite <- ?app_assoc.
Qed.

Lemma X10_write_lines_in_two_calls_witness :
  let a := [mkSrtLine (py "1") (py "t") [py "x"]] in
  let b := [mkSrtLine (py "2") (py "u") [py "y"]] in
  a <> [] /\ b <> []
  /\ Forall encodable_block a /\ Forall encodable_block b
  /\ exists ta tb,
       serialize a = Written ta /\ serialize b = Written tb
       /\ write_lines [] (a ++ b) = Written (ta ++ [newline] ++ tb).
Proof.
  cbv zeta.
  assert (Ha : [mkSrtLine (py "1") (py "t") [py "x"]] <> []) by discriminate.
  assert (Hb : [mkSrtLine (py "2") (py "u") [py "y"]] <> []) by discriminate.
  assert (Ea : Forall encodable_block [mkSrtLine (py "1") (py "t") [py "x"]])
    by (repeat constructor).
  assert (Eb : Forall encodable_block [mkSrtLine (py "2") (py "u") [py "y"]])
    by (repeat constructor).
  split; [exact Ha | split; [exact Hb | split; [exact Ea | split; [exact Eb|]]]].
  destruct (proj2 (X10_write_lines_in_two_calls [] _ _) Ha Hb Ea Eb)
    as (ta & tb & Sa & Sb & _ & _ & W).
  exists ta, tb. auto.
Defined.



(** X12: for blocks whose labels and text lines are single lines that can
    be encoded, none of the text lines blank, the writer returns, and the
    lines of the text written are, block after block, the sequence label,
    the timing label and the text lines, with one empty line between two
    blocks and none after the last. *)
Theorem X12_lines_of_written_text (subtitles : list SrtLine) :
  Forall clean_block subtitles ->
  Forall encodable_block subtitles ->
  exists written,
    serialize subtitles = Written written
    /\ splitlines written = srt_lines subtitles.
Proof.
  intros H He. exists (srt_text subtitles).
  split; [now apply serialize_text | now apply splitlines_srt_text].
Qed.

Lemma X12_lines_of_written_text_witness :
  let subtitles :=
    [mkSrtLine (py "1") (py "t") [py "x"];
     mkSrtLine (py "2") (py "u") [py "y"; py "z"]] in
  Forall clean_block subtitles
  /\ Forall encodable_block subtitles
  /\ exists written,
       serialize subtitles = Written written
       /\ splitlines written
          = [py "1"; py "t"; py "x"; []; py "2"; py "u"; py "y"; py "z"].
Proof.
  cbv zeta.
  assert (H : Forall clean_block
    [mkSrtLine (py "1") (py "t") [py "x"];
     mkSrtLine (py "2") (py "u") [py "y"; py "z"]]).
  { repeat constructor; simpl; discriminate. }
  assert (He : Forall encodable_block
    [mkSrtLine (py "1") (py "t") [py "x"];
     mkSrtLine (py "2") (py "u") [py "y"; py "z"]]).
  { repeat constructor. }
  split; [exact H | split; [exact He|]].
  exact (X12_lines_of_written_text _ H He).
Defined.

(** ** [str.splitlines] and [str.strip]: what the lines hold *)

Section LinesOfText.

Lemma no_linebreak_rev (s : str) : no_linebreak (rev s) = no_linebreak s.
Proof. apply forallb_rev. Qed.

Lemma splitlines_from_single_lines (n : nat) :
  forall (s cur : str),
    (length s <= n)%nat -> no_linebreak cur = true ->
    Forall (fun l => no_linebreak l = true) (splitlines_from cur s).
Proof.
  induction n as [|n IH]; intros s cur Hn Hcur.
  - destruct s; [|simpl in Hn; lia]. simpl.
    destruct cur; constructor; [now rewrite no_linebreak_rev | constructor].
  - destruct s as [|c rest]; simpl.
    + destruct cur; constructor; [now rewrite no_linebreak_rev | constructor].
    + simpl in Hn. destruct (is_linebreak c) eqn:Hc.
      * constructor; [now rewrite no_linebreak_rev|].
        destruct rest as [|d rest']; [constructor|].
        simpl in Hn.
        destruct ((c =? 13) && (d =? 10)); apply IH; simpl; auto; lia.
      * apply IH; [lia|]. simpl. now rewrite Hc.
Qed.

Lemma splitlines_single_lines (s : str) :
  Forall (fun l => no_linebreak l = true) (splitlines s).
Proof. now apply (splitlines_from_single_lines (length s)). Qed.

Lemma splitlines_from_covers (n : nat) (x : char) :
  is_linebreak x = false ->
  forall (s cur : str),
    (length s <= n)%nat -> In x cur \/ In x s ->
    exists l, In l (splitlines_from cur s) /\ In x l.
Proof.
  intros Hx. induction n as [|n IH]; intros s cur Hn Hin.
  - destruct s; [|simpl in Hn; lia]. destruct Hin as [Hin|[]].
    destruct cur as [|y cur]; [destruct Hin|].
    exists (rev (y :: cur)). split; [now left | now apply in_rev in Hin].
  - destruct s as [|c rest].
    + destruct Hin as [Hin|[]].
      destruct cur as [|y cur]; [destruct Hin|].
      exists (rev (y :: cur)). split; [now left | now apply in_rev in Hin].
    + simpl in Hn. cbn [splitlines_from].
      destruct (is_linebreak c) eqn:Hc.
      * destruct Hin as [Hin|Hin].
        { exists (rev cur). split; [now left | now apply in_rev in Hin]. }
        destruct Hin as [->|Hin]; [congruence|].
        destruct rest as [|d rest']; [destruct Hin|].
        simpl in Hn.
        destruct ((c =? 13) && (d =? 10)) eqn:Hcd.
        -- apply andb_true_iff in Hcd as [_ Hd]. apply N.eqb_eq in Hd.
           destruct Hin as [->|Hin]; [subst x; discriminate|].
           destruct (IH rest' [] ltac:(lia) (or_intror Hin)) as (l & Hl & Hxl).
           exists l. split; [now right | exact Hxl].
        -- destruct (IH (d :: rest') [] ltac:(simpl; lia) (or_intror Hin))
             as (l & Hl & Hxl).
           exists l. split; [now right | exact Hxl].
      * apply IH; [lia|]. destruct Hin as [Hin|[->|Hin]].
        -- left. now right.
        -- left. now left.
        -- now right.
Qed.

Lemma lstrip_nil (t : str) :
  lstrip t = [] <-> forallb is_whitespace t = true.
Proof.
  induction t as [|x t IH]; simpl; [tauto|].
  destruct (is_whitespace x); simpl; [exact IH|].
  split; discriminate.
Qed.

Lemma lstrip_head (t : str) (x : char) (r : str) :
  lstrip t = x :: r -> is_whitespace x = false.
Proof.
  induction t as [|y t IH]; simpl; [discriminate|].
  destruct (is_whitespace y) eqn:Hy; [exact IH|].
  now intros [= <- _].
Qed.

(** A line is blank for the parser exactly when all its characters are
    whitespace. *)
Lemma strip_nil (t : str) :
  strip t = [] <-> forallb is_whitespace t = true.
Proof.
  unfold strip. split.
  - intros H. apply (f_equal (@rev char)) in H.
    rewrite rev_involutive in H. simpl in H.
    apply lstrip_nil in H. rewrite forallb_rev in H.
    destruct (lstrip t) as [|x r] eqn:E; [now apply lstrip_nil|].
    apply lstrip_head in E. simpl in H. now rewrite E in H.
  - intros H. apply lstrip_nil in H. now rewrite H.
Qed.

Lemma forallb_perm {A} (f : A -> bool) (a b : list A) :
  Permutation a b -> forallb f a = true -> forallb f b = true.
Proof.
  intros P. rewrite !forallb_forall. intros H x Hx. apply H.
  eapply Permutation_in; [apply Permutation_sym, P | exact Hx].
Qed.

Lemma nonblank_perm (a b : str) :
  Permutation a b -> nonblank a -> nonblank b.
Proof.
  unfold nonblank. intros P Ha Hb. apply Ha.
  apply strip_nil. apply strip_nil in Hb.
  eapply forallb_perm; [apply Permutation_sym, P | exact Hb].
Qed.

Lemma no_linebreak_not_newline_end (l : str) :
  no_linebreak l = true -> endswith l [newline] = false.
Proof.
  intros H. destruct l as [|c p _] using rev_ind; [reflexivity|].
  rewrite endswith_last. apply N.eqb_neq. intros ->.
  unfold no_linebreak in H. rewrite forallb_app in H.
  apply andb_true_iff in H as [_ H]. discriminate H.
Qed.

(** [fix_line] keeps a single line single, and a line that is not blank
    not blank. *)
Lemma fix_line_clean (l : str) :
  no_linebreak l = true ->
  no_linebreak (fix_line l) = true /\ (nonblank l -> nonblank (fix_line l)).
Proof.
  intros H.
  destruct (fix_line_perm l (no_linebreak_not_newline_end l H)) as [P _].
  split.
  - eapply forallb_perm; [apply Permutation_sym, P | exact H].
  - apply nonblank_perm. now apply Permutation_sym.
Qed.

End LinesOfText.

(** ** [get_file_lines]: what is returned, and when it fails *)

Section ReadFile.

Lemma utf_8_decode_ascii (file : bytes) :
  Forall (fun x => b2n x < 128) file ->
  utf_8_decode file = Some (map b2n file).
Proof.
  induction 1 as [|x file Hx _ IH]; [reflexivity|].
  cbn [utf_8_decode map]. apply N.ltb_lt in Hx. rewrite Hx, IH. reflexivity.
Qed.

Lemma cp1255_decode_ascii (file : bytes) :
  Forall (fun x => b2n x < 128) file ->
  cp1255_decode file = Some (map b2n file).
Proof.
  induction 1 as [|x file Hx _ IH]; [reflexivity|].
  cbn [cp1255_decode map]. unfold cp1255_char.
  apply N.ltb_lt in Hx. rewrite Hx, IH. reflexivity.
Qed.

Lemma universal_newlines_members (n : nat) (x : char) :
  forall s : str,
    (length s <= n)%nat -> In x (universal_newlines s) ->
    x = newline \/ In x s.
Proof.
  induction n as [|n IH]; intros s Hn Hin.
  - destruct s; [destruct Hin | simpl in Hn; lia].
  - destruct s as [|c rest]; [destruct Hin|].
    simpl in Hn. cbn [universal_newlines] in Hin.
    destruct (c =? 13).
    + destruct Hin as [<-|Hin]; [now left|].
      destruct rest as [|d rest']; [destruct Hin|].
      simpl in Hn. destruct (d =? 10).
      * destruct (IH rest' ltac:(lia) Hin) as [H|H]; [now left|].
        right. right. now right.
      * destruct (IH (d :: rest') ltac:(simpl; lia) Hin) as [H|H];
          [now left | right; now right].
    + destruct Hin as [<-|Hin]; [right; now left|].
      destruct (IH rest ltac:(lia) Hin) as [H|H]; [now left | right; now right].
Qed.

Lemma read_ascii_without_yod (file : bytes) :
  Forall (fun x => b2n x < 128) file ->
  contains yod (universal_newlines (map b2n file)) = false.
Proof.
  intros H. destruct (contains yod _) eqn:E; [|reflexivity].
  unfold contains in E. apply existsb_exists in E as (x & Hin & Hx).
  apply N.eqb_eq in Hx. subst x.
  apply (universal_newlines_members _ _ _ (Nat.le_refl _)) in Hin.
  destruct Hin as [Hin|Hin]; [discriminate|].
  apply in_map_iff in Hin as (b & Hb & Hin).
  rewrite Forall_forall in H. specialize (H b Hin).
  rewrite Hb in H. unfold yod in H. lia.
Qed.

End ReadFile.

(** X13: a file of ASCII bytes only is refused with [DecodeError]: both
    readings succeed, and neither holds a yod. *)
Theorem X13_ascii_file_refused (file : bytes) :
  Forall (fun x => b2n x < 128) file ->
  get_file_lines file = Raised DecodeError.
Proof.
  intros H. unfold get_file_lines, read_text.
  rewrite (utf_8_decode_ascii file H), (cp1255_decode_ascii file H).
  cbn [option_map]. now rewrite (read_ascii_without_yod file H).
Qed.

Lemma X13_ascii_file_refused_witness :
  Forall (fun x => b2n x < 128) [Byte.x31; Byte.x0a; Byte.x61]
  /\ get_file_lines [Byte.x31; Byte.x0a; Byte.x61] = Raised DecodeError.
Proof.
  assert (H : Forall (fun x => b2n x < 128) [Byte.x31; Byte.x0a; Byte.x61])
    by (repeat constructor).
  split; [exact H | exact (X13_ascii_file_refused _ H)].
Defined.

(** X14: when [get_file_lines] returns, no line returned holds a line
    boundary, and at least one line returned holds a yod. *)
Theorem X14_returned_lines (file : bytes) (ls : list str) :
  get_file_lines file = Returned ls ->
  Forall (fun l => no_linebreak l = true) ls
  /\ exists l, In l ls /\ contains yod l = true.
Proof.
  intros H.
  assert (Hc : exists c, contains yod c = true /\ ls = splitlines c).
  { apply get_file_lines_Returned in H.
    destruct H as [(c & _ & Hy & E) | (_ & c & _ & Hy & E)]; eauto. }
  destruct Hc as (c & Hy & ->). split; [apply splitlines_single_lines|].
  unfold contains in Hy. apply existsb_exists in Hy as (x & Hin & Hx).
  apply N.eqb_eq in Hx. subst x.
  destruct (splitlines_from_covers (length c) yod eq_refl c []
              (Nat.le_refl _) (or_intror Hin)) as (l & Hl & Hxl).
  exists l. split; [exact Hl|].
  unfold contains. apply existsb_exists. exists yod.
  split; [exact Hxl | apply N.eqb_refl].
Qed.

Lemma X14_returned_lines_witness :
  get_file_lines [Byte.xd7; Byte.x99; Byte.x0a; Byte.x61]
  = Returned [[yod]; py "a"]
  /\ exists l, In l [[yod]; py "a"] /\ contains yod l = true.
Proof.
  assert (H : get_file_lines [Byte.xd7; Byte.x99; Byte.x0a; Byte.x61]
              = Returned [[yod]; py "a"]) by reflexivity.
  split; [exact H | exact (proj2 (X14_returned_lines _ _ H))].
Defined.

(** X15: the two errors of [get_file_lines].  [DecodeError] is raised
    exactly when the code page 1255 reading succeeds and neither it nor a
    UTF-8 reading holds a yod; the codec's [UnicodeDecodeError] is raised
    exactly when the file is not in code page 1255 and no UTF-8 reading
    holds a yod. *)
Theorem X15_errors_of_get_file_lines (file : bytes) :
  (get_file_lines file = Raised DecodeError
   <-> utf_8_without_yod file
       /\ exists c, read_text cp1255_decode file = Some c
                    /\ contains yod c = false)
  /\ (get_file_lines file = Raised UnicodeDecodeError
      <-> utf_8_without_yod file /\ read_text cp1255_decode file = None).
Proof.
  split; [apply get_file_lines_DecodeError
         | apply get_file_lines_UnicodeDecodeError].
Qed.

(** ** [fix_subtitles] and the writer *)

Section FixThenWrite.

Lemma parse_written (subtitles : list SrtLine) :
  Forall clean_block subtitles ->
  Forall encodable_block subtitles ->
  exists written,
    serialize subtitles = Written written
    /\ parse (splitlines written) = subtitles.
Proof.
  intros H He. exists (srt_text subtitles).
  split; [now apply serialize_text|].
  unfold parse. rewrite splitlines_srt_text by assumption.
  now rewrite parse_srt_lines.
Qed.

Lemma fix_block_encodable (b : SrtLine) :
  block_holds (fun l => no_linebreak l = true) b ->
  encodable_block b ->
  encodable_block (fix_block b).
Proof.
  intros (_ & _ & Hx) (Es & Et & Ex). repeat split; simpl; auto.
  apply Forall_map. rewrite Forall_forall in *.
  intros t Hin.
  destruct (fix_line_perm t (no_linebreak_not_newline_end t (Hx t Hin)))
    as [P _].
  eapply forallb_perm; [apply Permutation_sym, P | exact (Ex t Hin)].
Qed.

Lemma fix_block_clean (b : SrtLine) :
  block_holds (fun l => no_linebreak l = true) b ->
  Forall nonblank (text b) ->
  clean_block (fix_block b).
Proof.
  intros (Hs & Ht & Hx) Hn. repeat split; simpl; auto.
  apply Forall_map. rewrite Forall_forall in *.
  intros t Hin. destruct (fix_line_clean t (Hx t Hin)) as [H1 H2].
  split; [exact H1 | apply H2, Hn, Hin].
Qed.

Lemma clean_block_holds (b : SrtLine) :
  clean_block b ->
  block_holds (fun l => no_linebreak l = true) b
  /\ Forall nonblank (text b).
Proof.
  intros (Hs & Ht & Hx). repeat split; auto.
  - eapply Forall_impl; [|exact Hx]. now intros t [H _].
  - eapply Forall_impl; [|exact Hx]. now intros t [_ H].
Qed.

Lemma plain_line_fixed (l : str) : plain_line l -> fix_line l = l.
Proof. intros (H1 & H2 & H3). now apply fix_line_plain_ends. Qed.

End FixThenWrite.

(** X16: [fix_subtitles] keeps blocks fit for the file: when labels and
    text lines are single lines that can be encoded and no text line is
    blank, the same holds of the fixed blocks, the writer writes them
    without an exception, and the text written, read back, gives the fixed
    blocks as they are. *)
Theorem X16_fixed_blocks_round_trip (subtitles : list SrtLine) :
  Forall clean_block subtitles ->
  Forall encodable_block subtitles ->
  Forall clean_block (fix_subtitles subtitles)
  /\ Forall encodable_block (fix_subtitles subtitles)
  /\ exists written,
       serialize (fix_subtitles subtitles) = Written written
       /\ parse (splitlines written) = fix_subtitles subtitles.
Proof.
  intros H He.
  assert (Hc : Forall clean_block (fix_subtitles subtitles)).
  { rewrite fix_subtitles_map. apply Forall_map.
    eapply Forall_impl; [|exact H]. intros b Hb.
    destruct (clean_block_holds b Hb). now apply fix_block_clean. }
  assert (Hw : Forall encodable_block (fix_subtitles subtitles)).
  { rewrite fix_subtitles_map. apply Forall_map.
    rewrite Forall_forall in *. intros b Hb.
    destruct (clean_block_holds b (H b Hb)).
    apply fix_block_encodable; auto. }
  split; [exact Hc | split; [exact Hw | now apply parse_written]].
Qed.

Lemma X16_fixed_blocks_round_trip_witness :
  let subtitles := [mkSrtLine (py "1") (py "t") [py "(ab)?"; py "- c"]] in
  Forall clean_block subtitles
  /\ Forall encodable_block subtitles
  /\ exists written,
       serialize (fix_subtitles subtitles) = Written written
       /\ parse (splitlines written)
          = [mkSrtLine (py "1") (py "t") [py ")?ab("; py "c- "]].
Proof.
  cbv zeta.
  assert (H : Forall clean_block
                [mkSrtLine (py "1") (py "t") [py "(ab)?"; py "- c"]]).
  { repeat constructor; simpl; discriminate. }
  assert (He : Forall encodable_block
                 [mkSrtLine (py "1") (py "t") [py "(ab)?"; py "- c"]]).
  { repeat constructor. }
  split; [exact H | split; [exact He|]].
  exact (proj2 (proj2 (X16_fixed_blocks_round_trip _ H He))).
Defined.

(** X17: blocks whose text lines have no special character at either end
    (and no newline at the end) go through [fix_subtitles] unchanged. *)
Theorem X17_plain_blocks_unchanged (subtitles : list SrtLine) :
  Forall (fun b => Forall plain_line (text b)) subtitles ->
  fix_subtitles subtitles = subtitles.
Proof.
  intros H. rewrite fix_subtitles_map.
  induction H as [|b rest Hb _ IH]; [reflexivity|].
  simpl. rewrite IH. f_equal. destruct b as [s t x]. unfold fix_block.
  simpl in *. f_equal.
  induction Hb as [|l x Hl _ IHx]; [reflexivity|].
  simpl. now rewrite IHx, (plain_line_fixed l Hl).
Qed.

Lemma X17_plain_blocks_unchanged_witness :
  let subtitles := [mkSrtLine (py "1") (py "t") [py "ab, cd"; py "e"]] in
  Forall (fun b => Forall plain_line (text b)) subtitles
  /\ fix_subtitles subtitles = subtitles.
Proof.
  cbv zeta.
  assert (H : Forall (fun b => Forall plain_line (text b))
                [mkSrtLine (py "1") (py "t") [py "ab, cd"; py "e"]]).
  { repeat constructor. }
  split; [exact H | exact (X17_plain_blocks_unchanged _ H)].
Defined.

(** ** [main] *)

Section Main.

Lemma py_slice_drop_three_length (file : str) :
  length (py_slice file 0 (-3)) = (length file - 3)%nat.
Proof.
  unfold py_slice, clamp_index, len.
  change (0 <? 0)%Z with false. change (-3 <? 0)%Z with true. cbv iota.
  rewrite Z.min_l by lia. rewrite Z.sub_0_r.
  change (Z.to_nat 0) with 0%nat. rewrite skipn_O, length_firstn. lia.
Qed.

Lemma py_slice_drop_three (stem : str) (a b c : char) :
  py_slice (stem ++ [a; b; c]) 0 (-3) = stem.
Proof.
  unfold py_slice, clamp_index, len.
  change (0 <? 0)%Z with false. change (-3 <? 0)%Z with true. cbv iota.
  rewrite Z.min_l by lia. rewrite Z.sub_0_r.
  change (Z.to_nat 0) with 0%nat. rewrite skipn_O, length_app.
  change (length [a; b; c]) with 3%nat.
  replace (Z.to_nat (Z.max 0 (-3 + Z.of_nat (length stem + 3))))
    with (length stem + 0)%nat by lia.
  rewrite firstn_app_2. simpl. now rewrite app_nil_r.
Qed.

Lemma cp1255_high_encodable :
  forallb (fun o => match o with Some c => encodable c | None => true end)
    cp1255_high = true.
Proof. reflexivity. Qed.

Lemma cp1255_char_encodable (b c : N) :
  cp1255_char b = Some c -> encodable c = true.
Proof.
  unfold cp1255_char. destruct (N.ltb_spec b 128) as [Hb|Hb].
  - intros [= <-]. unfold encodable.
    replace (b <? 55296) with true by (symmetry; apply N.ltb_lt; lia).
    reflexivity.
  - intros H.
    destruct (Nat.lt_ge_cases (N.to_nat (b - 128)) (length cp1255_high))
      as [Hn|Hn].
    + pose proof (nth_In cp1255_high None Hn) as Hin. rewrite H in Hin.
      pose proof cp1255_high_encodable as Ht.
      rewrite forallb_forall in Ht. exact (Ht _ Hin).
    + rewrite nth_overflow in H by assumption. discriminate.
Qed.

Lemma cp1255_decode_encodable (bs : bytes) (s : str) :
  cp1255_decode bs = Some s -> forallb encodable s = true.
Proof.
  revert s. induction bs as [|x bs IH]; intros s; cbn [cp1255_decode].
  - now intros [= <-].
  - destruct (cp1255_char (b2n x)) as [c|] eqn:Hc; [|discriminate].
    destruct (cp1255_decode bs) as [s'|]; [|discriminate].
    intros [= <-]. simpl.
    now rewrite (cp1255_char_encodable _ _ Hc), (IH s' eq_refl).
Qed.

Lemma second_ok_range (b0 b1 : N) :
  second_ok b0 b1 = true ->
  128 <= b1 <= 191
  /\ (b0 = 224 -> 160 <= b1) /\ (b0 = 237 -> b1 <= 159)
  /\ (b0 = 240 -> 144 <= b1) /\ (b0 = 244 -> b1 <= 143).
Proof.
  unfold second_ok, in_range, is_cont.
  destruct (N.eqb_spec b0 224); [|destruct (N.eqb_spec b0 237);
    [|destruct (N.eqb_spec b0 240); [|destruct (N.eqb_spec b0 244)]]];
    rewrite andb_true_iff, !N.leb_le; lia.
Qed.

Lemma encodable_intro (c : N) :
  c < 55296 \/ (57343 < c /\ c <= 1114111) -> encodable c = true.
Proof.
  unfold encodable. rewrite orb_true_iff, andb_true_iff.
  rewrite !N.ltb_lt, N.leb_le. tauto.
Qed.

Lemma option_map_cons_inv (c : char) (o : option str) (s : str) :
  option_map (cons c) o = Some s -> exists s', o = Some s' /\ s = c :: s'.
Proof. destruct o as [s'|]; [|discriminate]. intros [= <-]. eauto. Qed.

Lemma utf_8_decode_encodable (n : nat) :
  forall (bs : bytes) (s : str),
    (length bs <= n)%nat ->
    utf_8_decode bs = Some s -> forallb encodable s = true.
Proof.
  induction n as [|n IH]; intros bs s Hn.
  - destruct bs; [now intros [= <-] | simpl in Hn; lia].
  - destruct bs as [|x0 r0]; [now intros [= <-]|].
    simpl in Hn. cbn [utf_8_decode]. cbv zeta.
    destruct (N.ltb_spec (b2n x0) 128) as [H0|H0].
    { intros H. apply option_map_cons_inv in H as (s' & E & ->).
      simpl. rewrite (IH r0 s') by (lia || assumption).
      rewrite encodable_intro by lia. reflexivity. }
    unfold in_range.
    destruct ((194 <=? b2n x0) && (b2n x0 <=? 223)) eqn:H2.
    { apply andb_true_iff in H2 as [Ha Hb].
      apply N.leb_le in Ha, Hb.
      destruct r0 as [|x1 r1]; [discriminate|]. simpl in Hn.
      unfold is_cont.
      destruct ((128 <=? b2n x1) && (b2n x1 <=? 191)) eqn:H1;
        [|discriminate].
      apply andb_true_iff in H1 as [Hc Hd]. apply N.leb_le in Hc, Hd.
      intros H. apply option_map_cons_inv in H as (s' & E & ->).
      simpl. rewrite (IH r1 s') by (lia || assumption).
      rewrite encodable_intro by lia. reflexivity. }
    destruct ((224 <=? b2n x0) && (b2n x0 <=? 239)) eqn:H3.
    { apply andb_true_iff in H3 as [Ha Hb].
      apply N.leb_le in Ha, Hb.
      destruct r0 as [|x1 [|x2 r2]]; try discriminate. simpl in Hn.
      destruct (second_ok (b2n x0) (b2n x1)) eqn:Hs; [|discriminate].
      apply second_ok_range in Hs.
      unfold is_cont. cbn [andb].
      destruct ((128 <=? b2n x2) && (b2n x2 <=? 191)) eqn:H1;
        [|discriminate].
      apply andb_true_iff in H1 as [Hc Hd]. apply N.leb_le in Hc, Hd.
      intros H. apply option_map_cons_inv in H as (s' & E & ->).
      simpl. rewrite (IH r2 s') by (lia || assumption).
      rewrite encodable_intro by lia. reflexivity. }
    destruct ((240 <=? b2n x0) && (b2n x0 <=? 244)) eqn:H4; [|discriminate].
    apply andb_true_iff in H4 as [Ha Hb]. apply N.leb_le in Ha, Hb.
    destruct r0 as [|x1 [|x2 [|x3 r3]]]; try discriminate. simpl in Hn.
    destruct (second_ok (b2n x0) (b2n x1)) eqn:Hs; [|discriminate].
    apply second_ok_range in Hs.
    unfold is_cont. cbn [andb].
    destruct ((128 <=? b2n x2) && (b2n x2 <=? 191)) eqn:H1; [|discriminate].
    apply andb_true_iff in H1 as [Hc Hd]. apply N.leb_le in Hc, Hd.
    cbn [andb].
    destruct ((128 <=? b2n x3) && (b2n x3 <=? 191)) eqn:H5; [|discriminate].
    apply andb_true_iff in H5 as [He Hf]. apply N.leb_le in He, Hf.
    intros H. apply option_map_cons_inv in H as (s' & E & ->).
    simpl. rewrite (IH r3 s') by (lia || assumption).
    rewrite encodable_intro by lia. reflexivity.
Qed.

Lemma universal_newlines_encodable (s : str) :
  forallb encodable s = true ->
  forallb encodable (universal_newlines s) = true.
Proof.
  rewrite !forallb_forall. intros H x Hx.
  apply (universal_newlines_members _ _ _ (Nat.le_refl _)) in Hx.
  destruct Hx as [->|Hx]; [reflexivity | exact (H x Hx)].
Qed.

(** No reading of a file holds a character that cannot be written. *)
Lemma read_text_encodable (content : bytes) (c : str) :
  read_text utf_8_decode content = Some c
  \/ read_text cp1255_decode content = Some c ->
  forallb encodable c = true.
Proof.
  unfold read_text. intros [H|H].
  - destruct (utf_8_decode content) as [s|] eqn:E; [|discriminate].
    injection H as <-. apply universal_newlines_encodable.
    exact (utf_8_decode_encodable _ _ _ (Nat.le_refl _) E).
  - destruct (cp1255_decode content) as [s|] eqn:E; [|discriminate].
    injection H as <-. apply universal_newlines_encodable.
    exact (cp1255_decode_encodable _ _ E).
Qed.

Lemma splitlines_from_members (n : nat) (x : char) :
  forall (s cur l : str),
    (length s <= n)%nat ->
    In l (splitlines_from cur s) -> In x l -> In x cur \/ In x s.
Proof.
  induction n as [|n IH]; intros s cur l Hn Hl Hx.
  - destruct s; [|simpl in Hn; lia]. simpl in Hl.
    destruct cur as [|y cur]; [destruct Hl|].
    destruct Hl as [<-|[]]. left. now apply in_rev.
  - destruct s as [|c rest].
    + simpl in Hl. destruct cur as [|y cur]; [destruct Hl|].
      destruct Hl as [<-|[]]. left. now apply in_rev.
    + simpl in Hn. cbn [splitlines_from] in Hl.
      destruct (is_linebreak c).
      * destruct Hl as [<-|Hl]; [left; now apply in_rev|].
        right. right.
        destruct rest as [|d rest']; [destruct Hl|]. simpl in Hn.
        destruct ((c =? 13) && (d =? 10)).
        -- destruct (IH rest' [] l ltac:(lia) Hl Hx) as [[]|H].
           now right.
        -- destruct (IH (d :: rest') [] l ltac:(simpl; lia) Hl Hx)
             as [[]|H].
           exact H.
      * destruct (IH rest (c :: cur) l ltac:(lia) Hl Hx) as [[<-|H]|H].
        -- right. now left.
        -- now left.
        -- right. now right.
Qed.

Lemma splitlines_encodable (c : str) :
  forallb encodable c = true ->
  Forall (fun l => forallb encodable l = true) (splitlines c).
Proof.
  intros H. apply Forall_forall. intros l Hl.
  rewrite forallb_forall in *. intros x Hx.
  destruct (splitlines_from_members _ x c [] l (Nat.le_refl _) Hl Hx)
    as [[]|Hin].
  exact (H x Hin).
Qed.

(** The blocks that [main] writes are fit for the file. *)
Lemma main_blocks_clean (c : str) :
  Forall clean_block (fix_subtitles (parse (splitlines c))).
Proof.
  rewrite fix_subtitles_map. apply Forall_map.
  pose proof (parse_lines_hold (fun l => no_linebreak l = true)
                (splitlines c) SrtParser_init (splitlines_single_lines c)
                (parser_init_holds _)) as Hh.
  destruct (parse_lines_ok SrtParser_init (splitlines c) parser_init_ok)
    as [_ Hn].
  change (snd (parse_lines SrtParser_init (splitlines c)))
    with (parse (splitlines c)) in Hh.
  change (_lines (fst (parse_lines SrtParser_init (splitlines c))))
    with (parse (splitlines c)) in Hn.
  rewrite Forall_forall in *. intros b Hb.
  apply fix_block_clean; auto.
Qed.

(** And the writer can write them. *)
Lemma main_blocks_encodable (c : str) :
  forallb encodable c = true ->
  Forall encodable_block (fix_subtitles (parse (splitlines c))).
Proof.
  intros Hc. rewrite fix_subtitles_map. apply Forall_map.
  pose proof (parse_lines_hold (fun l => no_linebreak l = true)
                (splitlines c) SrtParser_init (splitlines_single_lines c)
                (parser_init_holds _)) as Hh.
  pose proof (parse_lines_hold (fun l => forallb encodable l = true)
                (splitlines c) SrtParser_init (splitlines_encodable c Hc)
                (parser_init_holds _)) as He.
  change (snd (parse_lines SrtParser_init (splitlines c)))
    with (parse (splitlines c)) in Hh, He.
  rewrite Forall_forall in *. intros b Hb.
  apply fix_block_encodable; [apply Hh | apply He]; assumption.
Qed.

End Main.

(** X18: the path [main] writes to.  For an argument of at least three
    characters it is the argument with the last three replaced by fix.srt;
    for a shorter one it is fix.srt.  It is always longer than the
    argument, hence never the path of the input. *)
Theorem X18_output_path (file stem : str) (a b c : char) :
  output_path (stem ++ [a; b; c]) = stem ++ py "fix.srt"
  /\ ((length file < 3)%nat -> output_path file = py "fix.srt")
  /\ (length file < length (output_path file))%nat
  /\ output_path file <> file.
Proof.
  assert (Hlen : (length file < length (output_path file))%nat).
  { unfold output_path. rewrite length_app, py_slice_drop_three_length.
    simpl. lia. }
  split; [|split; [|split]].
  - unfold output_path. now rewrite py_slice_drop_three.
  - intros H. unfold output_path.
    pose proof (py_slice_drop_three_length file) as E.
    destruct (py_slice file 0 (-3)); [reflexivity | simpl in E; lia].
  - exact Hlen.
  - intros E. rewrite E in Hlen. lia.
Qed.

Lemma X18_output_path_witness :
  output_path (py "movie.srt") = py "movie.fix.srt"
  /\ (length (py "a") < 3)%nat /\ output_path (py "a") = py "fix.srt".
Proof.
  assert (H : (length (py "a") < 3)%nat) by (simpl; lia).
  split; [reflexivity | split; [exact H|]].
  exact (proj1 (proj2 (X18_output_path (py "a") [] 0 0 0)) H).
Defined.

(** X19: [main] fails exactly when [get_file_lines] fails, with the same
    error and without output: no write raises on what was read from a file.
    When it succeeds it writes, to the path [output_path file], the fixed
    blocks of the lines read, and that text, split into lines and parsed
    again, gives exactly these fixed blocks. *)
Theorem X19_main_writes_fixed_blocks (file : str) (content : bytes) :
  (forall e, main file content = Raised e
             <-> get_file_lines content = Raised e)
  /\ (forall path written,
        main file content = Returned (path, written) ->
        path = output_path file
        /\ exists ls,
             get_file_lines content = Returned ls
             /\ serialize (fix_subtitles (parse ls)) = Written written
             /\ parse (splitlines written) = fix_subtitles (parse ls)).
Proof.
  assert (Hw : forall ls, get_file_lines content = Returned ls ->
               exists written,
                 serialize (fix_subtitles (parse ls)) = Written written
                 /\ parse (splitlines written) = fix_subtitles (parse ls)).
  { intros ls Hg.
    assert (Hc : exists c, forallb encodable c = true /\ ls = splitlines c).
    { apply get_file_lines_Returned in Hg.
      destruct Hg as [(c & R & _ & E) | (_ & c & R & _ & E)];
        exists c; split; auto; apply (read_text_encodable content); auto. }
    destruct Hc as (c & Hc & ->).
    apply parse_written;
      [apply main_blocks_clean | now apply main_blocks_encodable]. }
  unfold main.
  destruct (get_file_lines content) as [ls|e0] eqn:Hg.
  - destruct (Hw ls eq_refl) as (written & W & R).
    unfold serialize in W. unfold parse in W at 1. rewrite W.
    split.
    + intros e. split; intros ?; discriminate.
    + intros path w [= <- <-]. split; [reflexivity|].
      exists ls. split; [reflexivity|]. split; [exact W | exact R].
  - split.
    + intros e. split; intros [= ->]; reflexivity.
    + intros path w. discriminate.
Qed.

Lemma X19_main_writes_fixed_blocks_witness :
  let content :=
    [Byte.x31; Byte.x0a; Byte.x74; Byte.x0a;
     Byte.x28; Byte.xd7; Byte.x99; Byte.x0a] in
  main (py "a.srt") content
  = Returned (py "a.fix.srt", py "1" ++ [newline] ++ py "t" ++ [newline]
                               ++ [yod] ++ py "(" ++ [newline])
  /\ parse (splitlines (py "1" ++ [newline] ++ py "t" ++ [newline]
                        ++ [yod] ++ py "(" ++ [newline]))
     = [mkSrtLine (py "1") (py "t") [[yod] ++ py "("]].
Proof.
  cbv zeta.
  assert (H : main (py "a.srt")
                [Byte.x31; Byte.x0a; Byte.x74; Byte.x0a;
                 Byte.x28; Byte.xd7; Byte.x99; Byte.x0a]
              = Returned (py "a.fix.srt",
                          py "1" ++ [newline] ++ py "t" ++ [newline]
                          ++ [yod] ++ py "(" ++ [newline]))
    by reflexivity.
  split; [exact H|].
  destruct (proj2 (X19_main_writes_fixed_blocks _ _) _ _ H)
    as (_ & ls & Hg & _ & E).
  rewrite E. vm_compute in Hg. injection Hg as <-. reflexivity.
Defined.
